(** * Banca Inteligente: text extraction, normalisation and redaction

    A shallow embedding of the JavaScript sources of the statement
    pipeline: the personal-data redactor ([sanitizePersonalData]), the
    bank detector ([detectBankType], [detectBankFromContent]), the
    character normaliser ([normalizeBankText]), the positional row
    builder ([organizeIntoRows], [processTextContent]), the line builders
    and clean-up rules of the extractors ([extractTextFromPDF],
    [enhanceExtractedText], [cleanOcrText]), the image compressor and the
    two remote OCR clients (retry loop, page cap, size ceilings).

    JavaScript strings are sequences of UTF-16 code units; regular
    expressions are kept as syntax trees and run by a backtracking
    matcher that enumerates matches in the priority order of the
    ECMAScript pattern semantics. *)

From Stdlib Require Import NArith ZArith QArith Qround Qabs List Bool.
From Stdlib Require Import Lia Lqa.
From Stdlib Require Import String Ascii DecimalString.
From stdpp Require Import gmap list.
From Equations Require Import Equations.
Import ListNotations.

Local Open Scope N_scope.

(* ===================================================================== *)
(** * Part I: definitions *)
(* ===================================================================== *)

(** ** JavaScript strings *)

(** A string is the list of its UTF-16 code units. *)
Definition jsstring := list N.

(** [lit s] is the JS string literal whose characters are the ASCII
    characters of [s]; code units above 127 are written as numerals. *)
Definition lit (s : string) : jsstring :=
  List.map N_of_ascii (list_ascii_of_string s).

Definition in_range (lo hi c : N) : bool := (lo <=? c) && (c <=? hi).

(** [\d], [\w] and [\s] without the [u] flag. *)
Definition is_digit (c : N) : bool := in_range 48 57 c.

Definition is_word (c : N) : bool :=
  in_range 97 122 c || in_range 65 90 c || in_range 48 57 c || (c =? 95).

Definition is_line_terminator (c : N) : bool :=
  (c =? 10) || (c =? 13) || (c =? 8232) || (c =? 8233).

Definition is_space (c : N) : bool :=
  in_range 9 13 c || (c =? 32) || (c =? 160) || (c =? 5760)
  || in_range 8192 8202 c || (c =? 8232) || (c =? 8233) || (c =? 8239)
  || (c =? 8287) || (c =? 12288) || (c =? 65279).

(** Canonicalisation under the [i] flag. A code unit above 127 never
    canonicalises to an ASCII one, so against patterns whose atoms are
    ASCII (the only ones used with [/i] here) upper-casing a-z is exact. *)
Definition canon (c : N) : N := if in_range 97 122 c then c - 32 else c.

(** [String.prototype.includes]: [k] occurs in [s] as a substring. *)
Fixpoint starts_with (k s : jsstring) : bool :=
  match k, s with
  | [], _ => true
  | a :: k', b :: s' => (a =? b) && starts_with k' s'
  | _ :: _, [] => false
  end.

Fixpoint includes (s k : jsstring) : bool :=
  starts_with k s ||
  match s with
  | [] => false
  | _ :: s' => includes s' k
  end.

(** ** Regular expressions *)

Inductive citem : Type :=
| CChar (c : N)            (* a literal member *)
| CRange (lo hi : N)       (* lo-hi *)
| CDigit                   (* \d *)
| CSpace                   (* \s *)
| CWord.                   (* \w *)

Inductive regex : Type :=
| Eps
| Chr (c : N)                              (* a pattern character *)
| Class (neg : bool) (items : list citem)  (* [...] and [^...] *)
| Dot                                      (* . *)
| WordB                                    (* \b *)
| Seq (a b : regex)
| Group (i : nat) (r : regex)              (* i-th capturing group *)
| Quant (r : regex) (mn : nat) (mx : option nat) (greedy : bool).

Definition citem_has (c : N) (it : citem) : bool :=
  match it with
  | CChar a => a =? c
  | CRange lo hi => in_range lo hi c
  | CDigit => is_digit c
  | CSpace => is_space c
  | CWord => is_word c
  end.

Definition class_has (items : list citem) (c : N) : bool :=
  existsb (citem_has c) items.

(** Does input character [c] match the atom, with or without [/i]? *)
Definition chr_matches (ic : bool) (p c : N) : bool :=
  if ic then canon p =? canon c else p =? c.

Definition class_matches (ic neg : bool) (items : list citem) (c : N) : bool :=
  xorb neg
    (if ic
     then class_has items c || class_has items (canon c)
          || (in_range 65 90 c && class_has items (c + 32))
     else class_has items c).

(** A matcher state: the code unit before the current position (for
    [\b]), the input that is left, and the captures made so far. *)
Record mstate : Type := MState {
  prev : option N;
  rest : jsstring;
  caps : gmap nat jsstring
}.

Definition advance (x : mstate) (c : N) (s : jsstring) : mstate :=
  MState (Some c) s (caps x).

Definition word_before (x : mstate) : bool :=
  match prev x with Some c => is_word c | None => false end.

Definition word_after (x : mstate) : bool :=
  match rest x with c :: _ => is_word c | [] => false end.

Definition at_boundary (x : mstate) : bool :=
  xorb (word_before x) (word_after x).

(** What was consumed between state [x] and a later state [y]. *)
Definition consumed (x y : mstate) : jsstring :=
  take (length (rest x) - length (rest y))%nat (rest x).

Definition is_zero (mx : option nat) : bool :=
  match mx with Some O => true | _ => false end.

(** RepeatMatcher: all ways to iterate [m] between [mn] and [mx] times
    from [x], best first. An iteration that consumes nothing once the
    minimum is reached is rejected, as in the ECMAScript semantics; this
    is also what bounds the recursion ([fuel] is [mn] plus the input
    left, plus one). *)
Fixpoint rep (m : mstate -> list mstate) (greedy : bool)
    (fuel mn : nat) (mx : option nat) (x : mstate) : list mstate :=
  match fuel with
  | O => []
  | S fuel' =>
    if is_zero mx then [x]
    else
      let more :=
        flat_map (fun y =>
          if Nat.eqb mn 0 && Nat.eqb (length (rest y)) (length (rest x))
          then []
          else rep m greedy fuel' (Nat.pred mn) (Nat.pred <$> mx) y)
          (m x) in
      if negb (Nat.eqb mn 0) then more
      else if greedy then more ++ [x]
      else x :: more
  end.

(** [run ic r x]: every state in which a match of [r] started at [x] can
    end, in backtracking priority order. *)
Fixpoint run (ic : bool) (r : regex) (x : mstate) : list mstate :=
  match r with
  | Eps => [x]
  | Chr p =>
    match rest x with
    | c :: s => if chr_matches ic p c then [advance x c s] else []
    | [] => []
    end
  | Class neg items =>
    match rest x with
    | c :: s => if class_matches ic neg items c then [advance x c s] else []
    | [] => []
    end
  | Dot =>
    match rest x with
    | c :: s => if is_line_terminator c then [] else [advance x c s]
    | [] => []
    end
  | WordB => if at_boundary x then [x] else []
  | Seq a b => flat_map (run ic b) (run ic a x)
  | Group i r1 =>
    List.map (fun y => MState (prev y) (rest y) (<[i := consumed x y]> (caps y)))
      (run ic r1 x)
  | Quant r1 mn mx greedy =>
    rep (run ic r1) greedy (S (mn + length (rest x))) mn mx x
  end.

(** One [exec] at a fixed position: the first match, if any. *)
Definition exec (ic : bool) (r : regex) (p : option N) (s : jsstring)
  : option mstate :=
  head (run ic r (MState p s ∅)).

(** Replacement templates: literal text and [$n] references. *)
Inductive rpiece : Type :=
| RLit (s : jsstring)
| RRef (i : nat).

Definition expand (tmpl : list rpiece) (y : mstate) : jsstring :=
  flat_map (fun p =>
    match p with
    | RLit s => s
    | RRef i => default [] (caps y !! i)
    end) tmpl.

(** [String.prototype.replace] with a global regex: scan left to right,
    replace the first match found at each position and resume after it
    (after an empty match one code unit is copied). [skip] counts the
    code units of the current match that are still to be dropped. *)
Fixpoint scan (ic : bool) (r : regex) (tmpl : list rpiece)
    (skip : nat) (p : option N) (s : jsstring) : jsstring :=
  match skip with
  | S n =>
    match s with
    | [] => []
    | c :: s' => scan ic r tmpl n (Some c) s'
    end
  | O =>
    match exec ic r p s with
    | Some y =>
      expand tmpl y ++
      match (length s - length (rest y))%nat, s with
      | _, [] => []
      | O, c :: s' => c :: scan ic r tmpl 0 (Some c) s'
      | S n, c :: s' => scan ic r tmpl n (Some c) s'
      end
    | None =>
      match s with
      | [] => []
      | c :: s' => c :: scan ic r tmpl 0 (Some c) s'
      end
    end
  end.

Definition replace_all (ic : bool) (r : regex) (tmpl : list rpiece)
    (s : jsstring) : jsstring :=
  scan ic r tmpl 0 None s.

(** The same with a replacer function that reads the matched text only
    ([match => ...]): the scan is the one above, with the function's
    result in place of the expanded template. *)
Fixpoint scan_fn (ic : bool) (r : regex) (fn : jsstring -> jsstring)
    (skip : nat) (p : option N) (s : jsstring) : jsstring :=
  match skip with
  | S n =>
    match s with
    | [] => []
    | c :: s' => scan_fn ic r fn n (Some c) s'
    end
  | O =>
    match exec ic r p s with
    | Some y =>
      fn (consumed (MState p s ∅) y) ++
      match (length s - length (rest y))%nat, s with
      | _, [] => []
      | O, c :: s' => c :: scan_fn ic r fn 0 (Some c) s'
      | S n, c :: s' => scan_fn ic r fn n (Some c) s'
      end
    | None =>
      match s with
      | [] => []
      | c :: s' => c :: scan_fn ic r fn 0 (Some c) s'
      end
    end
  end.

Definition replace_all_fn (ic : bool) (r : regex)
    (fn : jsstring -> jsstring) (s : jsstring) : jsstring :=
  scan_fn ic r fn 0 None s.

(** Pattern-building shorthands, named after the syntax they stand for. *)
Definition seq (rs : list regex) : regex := foldr Seq Eps rs.
Definition word (s : string) : regex := seq (List.map Chr (lit s)).
Definition cls (items : list citem) : regex := Class false items.
Definition digit : regex := cls [CDigit].
Definition space : regex := cls [CSpace].
Definition star (r : regex) : regex := Quant r 0 None true.
Definition plus (r : regex) : regex := Quant r 1 None true.
Definition opt (r : regex) : regex := Quant r 0 (Some 1%nat) true.
Definition star_lazy (r : regex) : regex := Quant r 0 None false.
Definition times (r : regex) (n : nat) : regex := Quant r n (Some n) true.
Definition between (r : regex) (n m : nat) : regex := Quant r n (Some m) true.
Definition at_least (r : regex) (n : nat) : regex := Quant r n None true.
Definition range_of (a b : string) : citem :=
  match lit a, lit b with
  | [lo], [hi] => CRange lo hi
  | _, _ => CRange 1 0
  end.
Definition chars_of (s : string) : list citem := List.map CChar (lit s).

(** ** PersonalDataRedactor: [sanitizePersonalData] *)

(** The replacement tokens; 218 is the code unit of U+00DA. *)
Definition TOKEN_TARJETA : jsstring :=
  lit "[N" ++ [218] ++ lit "MERO DE TARJETA REDACTADO]".
Definition TOKEN_CUENTA : jsstring :=
  lit "[N" ++ [218] ++ lit "MERO DE CUENTA REDACTADO]".
Definition TOKEN_CLABE : jsstring := lit "[CLABE REDACTADA]".
Definition TOKEN_CORREO : jsstring := lit "[CORREO REDACTADO]".
Definition TOKEN_NOMBRE : jsstring := lit "Titular: [NOMBRE REDACTADO]".

(** [/\b(?:\d[ -]*?){13,16}\b/g] *)
Definition creditCardRegex : regex :=
  seq [WordB;
       between (seq [digit; star_lazy (cls (chars_of " -"))]) 13 16;
       WordB].

(** [/\b\d{10,20}\b/g] *)
Definition accountNumberRegex : regex :=
  seq [WordB; between digit 10 20; WordB].

(** [/\b\d{18}\b/g] *)
Definition clabeRegex : regex :=
  seq [WordB; times digit 18; WordB].

(** [/[a-zA-Z0-9._%+-]+@[a-zA-Z0-9.-]+\.[a-zA-Z]{2,}/g] *)
Definition emailRegex : regex :=
  seq [plus (cls ([range_of "a" "z"; range_of "A" "Z"; range_of "0" "9"]
                  ++ chars_of "._%+-"));
       Chr 64;
       plus (cls ([range_of "a" "z"; range_of "A" "Z"; range_of "0" "9"]
                  ++ chars_of ".-"));
       Chr 46;
       at_least (cls [range_of "a" "z"; range_of "A" "Z"]) 2].

(** The classes [[A-ZÁÉÍÓÚÑ]] and [[a-záéíóúñ]]. *)
Definition upperEs : regex :=
  cls [range_of "A" "Z"; CChar 193; CChar 201; CChar 205; CChar 211;
       CChar 218; CChar 209].
Definition lowerEs : regex :=
  cls [range_of "a" "z"; CChar 225; CChar 233; CChar 237; CChar 243;
       CChar 250; CChar 241].
Definition nameWord : regex := seq [upperEs; plus lowerEs].

(** [/Titular:?\s*([A-ZÁÉÍÓÚÑ][a-záéíóúñ]+\s+[A-ZÁÉÍÓÚÑ][a-záéíóúñ]+(?:\s+[A-ZÁÉÍÓÚÑ][a-záéíóúñ]+)?)/g] *)
Definition nameRegex : regex :=
  seq [word "Titular"; opt (Chr 58); star space;
       Group 1 (seq [nameWord; plus space; nameWord;
                     opt (seq [plus space; nameWord])])].

Definition redactCard (text : jsstring) : jsstring :=
  replace_all false creditCardRegex [RLit TOKEN_TARJETA] text.
Definition redactAccount (text : jsstring) : jsstring :=
  replace_all false accountNumberRegex [RLit TOKEN_CUENTA] text.
Definition redactClabe (text : jsstring) : jsstring :=
  replace_all false clabeRegex [RLit TOKEN_CLABE] text.
Definition redactEmail (text : jsstring) : jsstring :=
  replace_all false emailRegex [RLit TOKEN_CORREO] text.
Definition redactName (text : jsstring) : jsstring :=
  replace_all false nameRegex [RLit TOKEN_NOMBRE] text.

(** ** String helpers *)

Fixpoint drop_while {A : Type} (f : A -> bool) (l : list A) : list A :=
  match l with
  | [] => []
  | a :: l' => if f a then drop_while f l' else l
  end.

(** [String.prototype.trim]: white space and line terminators, the same
    set as [\s]. *)
Definition trimStart (s : jsstring) : jsstring := drop_while is_space s.
Definition trimEnd (s : jsstring) : jsstring :=
  rev (drop_while is_space (rev s)).
Definition trim (s : jsstring) : jsstring := trimEnd (trimStart s).

(** [Array.prototype.join]. *)
Fixpoint join (sep : jsstring) (parts : list jsstring) : jsstring :=
  match parts with
  | [] => []
  | p :: ps =>
    match ps with
    | [] => p
    | _ :: _ => p ++ sep ++ join sep ps
    end
  end.

(** [String.prototype.split] with a one-character separator: [cur] is
    the piece being read. *)
Fixpoint split_from (sep : N) (cur s : jsstring) : list jsstring :=
  match s with
  | [] => [rev cur]
  | c :: s' =>
    if c =? sep then rev cur :: split_from sep [] s'
    else split_from sep (c :: cur) s'
  end.

Definition split (sep : N) (s : jsstring) : list jsstring :=
  split_from sep [] s.

(** A JS value used as a condition: the empty string is falsy. *)
Definition truthy (s : jsstring) : bool :=
  match s with [] => false | _ :: _ => true end.

(** Decimal rendering of a page number in string concatenation. *)
Definition num_to_string (n : nat) : jsstring :=
  lit (NilEmpty.string_of_uint (Nat.to_uint n)).

Definition NEWLINE : jsstring := [10].

(** ** Bank detection: [detectBankType], [detectBankFromContent] *)

Section BankDetection.

(** [String.prototype.toUpperCase] follows the Unicode case mappings; the
    detectors are stated over any function in its place. *)
Variable toUpperCase : jsstring -> jsstring.

(** The normaliser library: an [if / else if] chain. *)
Definition detectBankType (text : jsstring) : jsstring :=
  let textUpper := toUpperCase text in
  if includes textUpper (lit "HSBC") || includes textUpper (lit "2NOW")
  then lit "HSBC"
  else if includes textUpper (lit "BBVA")
          || includes textUpper (lit "BANCOMER")
  then lit "BBVA"
  else if includes textUpper (lit "SANTANDER") then lit "SANTANDER"
  else if includes textUpper (lit "BANORTE") then lit "BANORTE"
  else if includes textUpper (lit "BANAMEX")
          || includes textUpper (lit "CITIBANAMEX")
  then lit "CITIBANAMEX"
  else lit "Desconocido".

(** The enhanced extractor and the OCR service: consecutive [if]s, each
    returning. *)
Definition detectBankFromContent (text : jsstring) : jsstring :=
  let upperText := toUpperCase text in
  if includes upperText (lit "HSBC") || includes upperText (lit "2NOW")
  then lit "HSBC" else
  if includes upperText (lit "BBVA") || includes upperText (lit "BANCOMER")
  then lit "BBVA" else
  if includes upperText (lit "SANTANDER") then lit "SANTANDER" else
  if includes upperText (lit "BANORTE") then lit "BANORTE" else
  if includes upperText (lit "BANAMEX")
     || includes upperText (lit "CITIBANAMEX")
  then lit "CITIBANAMEX" else
  lit "Desconocido".

End BankDetection.

(** The detector as the specification words it: a priority table of
    keyword groups, searched first to last over the upper-cased text. *)
Definition spec_priority : list (list jsstring * jsstring) :=
  [([lit "HSBC"; lit "2NOW"], lit "HSBC");
   ([lit "BBVA"; lit "BANCOMER"], lit "BBVA");
   ([lit "SANTANDER"], lit "SANTANDER");
   ([lit "BANORTE"], lit "BANORTE");
   ([lit "BANAMEX"; lit "CITIBANAMEX"], lit "CITIBANAMEX")].

Fixpoint spec_first_match (table : list (list jsstring * jsstring))
    (upper : jsstring) : jsstring :=
  match table with
  | [] => lit "Desconocido"
  | (keys, tag) :: table' =>
    if existsb (includes upper) keys then tag
    else spec_first_match table' upper
  end.

(** What the detectors need of [toUpperCase]: a keyword of capital
    letters and digits that stands in the text is left in place, and what
    is before and after it is upper-cased by itself. The keyword is not
    empty: [toUpperCase] maps code points, so it does not distribute over
    a cut between the two halves of a surrogate pair, but a keyword of
    ASCII characters keeps such halves apart. *)
Definition is_keyword_char (c : N) : bool :=
  in_range 65 90 c || in_range 48 57 c.

Definition keeps_keywords (up : jsstring -> jsstring) : Prop :=
  forall a k b : jsstring,
    k <> [] ->
    forallb is_keyword_char k = true ->
    up (a ++ k ++ b) = up a ++ k ++ up b.


(** [toUpperCase] as it is on Basic Latin, the Latin-1 supplement and the
    long s: sharp s (223) becomes SS, the micro sign (181) the Greek
    capital mu (924), y with diaeresis (255) U+0178 (376), the long s
    (383) the letter S, and the other small letters of Latin-1 -- 224 to
    254 without the division sign -- lose 32. Code units outside these
    ranges are left as they are here, which the platform does not do. *)
Definition upper_of (c : N) : jsstring :=
  if in_range 97 122 c then [c - 32]
  else if c =? 223 then [83; 83]
  else if c =? 181 then [924]
  else if c =? 255 then [376]
  else if c =? 383 then [83]
  else if in_range 224 254 c && negb (c =? 247) then [c - 32]
  else [c].

Definition latin_upper (s : jsstring) : jsstring := flat_map upper_of s.

(** ** Character normaliser: [normalizeBankText] *)

(** An object literal keyed by characters, as written: entries in source
    order. When a key is written twice the later entry is the one kept. *)
Definition ent (k v : N) : N * jsstring := (k, [v]).

Fixpoint obj_get (entries : list (N * jsstring)) (k : N) : option jsstring :=
  match entries with
  | [] => None
  | (k', v) :: entries' =>
    match obj_get entries' k with
    | Some later => Some later
    | None => if k' =? k then Some v else None
    end
  end.

(** The sixty entries both copies share, five to a source line, from
    ['\u00f0': '0'] to ['\u00cc': 'G']; 249, 248 and 247 occur twice. *)
Definition commonCharMap : list (N * jsstring) :=
  [
   ent 240 48; ent 241 49; ent 242 50; ent 243 51; ent 244 52;
   ent 245 53; ent 246 54; ent 247 55; ent 248 56; ent 249 57;
   ent 213 78; ent 214 79; ent 199 67; ent 201 69; ent 193 65;
   ent 197 69; ent 194 66; ent 195 67; ent 196 68; ent 198 70;
   ent 200 72; ent 217 82; ent 218 83; ent 219 84; ent 220 85;
   ent 221 86; ent 222 88; ent 223 89; ent 224 90; ent 209 209;
   ent 228 100; ent 227 99; ent 226 98; ent 225 97; ent 229 101;
   ent 233 105; ent 232 104; ent 231 103; ent 230 102; ent 237 109;
   ent 236 108; ent 235 107; ent 234 106; ent 239 111; ent 238 110;
   ent 250 115; ent 249 114; ent 248 112; ent 247 113; ent 253 119;
   ent 252 117; ent 251 116; ent 163 76; ent 162 111; ent 215 120;
   ent 212 77; ent 210 75; ent 207 73; ent 208 74; ent 204 71
  ].

(** The entries only the PDF extractor's copy has: punctuation mapped to
    itself, from ['@': '@'] to ['/': '/']. *)
Definition punctuationEntries : list (N * jsstring) :=
  [
   ent 64 64; ent 35 35; ent 36 36; ent 37 37; ent 94 94;
   ent 38 38; ent 42 42; ent 40 40; ent 41 41; ent 45 45;
   ent 43 43; ent 61 61; ent 123 123; ent 125 125; ent 91 91;
   ent 93 93; ent 124 124; ent 92 92; ent 58 58; ent 59 59;
   ent 34 34; ent 39 39; ent 60 60; ent 62 62; ent 44 44;
   ent 46 46; ent 63 63; ent 47 47
  ].

(** The corrections after the character loop, both copies alike. *)
Definition digitRange : regex := cls [range_of "0" "9"].

(** [/([0-9]) ([0-9])/g] *)
Definition spacedDigitsRegex : regex :=
  seq [Group 1 digitRange; Chr 32; Group 2 digitRange].

(** [/([0-9]),([0-9]{3})/g] *)
Definition thousandsRegex : regex :=
  seq [Group 1 digitRange; Chr 44; Group 2 (times digitRange 3)].

(** [/\[(.*?)\]/g] *)
Definition bracketRegex : regex :=
  seq [Chr 91; Group 1 (star_lazy Dot); Chr 93].

(** [/No\./gi], [/Num\./gi] and [/Ref\./gi] *)
Definition noRegex : regex := seq [word "No"; Chr 46].
Definition numRegex : regex := seq [word "Num"; Chr 46].
Definition refRegex : regex := seq [word "Ref"; Chr 46].

(** ['Número'] (250 is the code unit of U+00FA) and ['Referencia']. *)
Definition NUMERO : jsstring := lit "N" ++ [250] ++ lit "mero".
Definition REFERENCIA : jsstring := lit "Referencia".

Definition bankCorrections (normalized : jsstring) : jsstring :=
  let normalized :=
    replace_all false spacedDigitsRegex [RRef 1; RRef 2] normalized in
  let normalized :=
    replace_all false thousandsRegex [RRef 1; RRef 2] normalized in
  let normalized := replace_all false bracketRegex [RRef 1] normalized in
  let normalized := replace_all true noRegex [RLit NUMERO] normalized in
  let normalized := replace_all true numRegex [RLit NUMERO] normalized in
  replace_all true refRegex [RLit REFERENCIA] normalized.

(** The character loop: [normalized += ...] for each code unit. *)
Definition substitute (bankCharMap : list (N * jsstring))
    (text : jsstring) : jsstring :=
  flat_map (fun char =>
    match obj_get bankCharMap char with
    | Some v => if truthy v then v else [char]
    | None => [char]
    end) text.

(** ** Text items of a PDF page *)

(** A text item of PDF.js: its string, [transform[4]] (x), [transform[5]]
    (y, growing upwards from the bottom of the page) and its width, which
    may be absent. The program computes on these numbers in double
    precision; here they are rationals and the arithmetic is exact. The
    two agree where the doubles are exact, as on whole coordinates of
    ordinary size, and statements about computed positions are made for
    such coordinates. *)
Record TextItem : Type := Item {
  str : jsstring;
  transform4 : Q;
  transform5 : Q;
  width : option Q
}.

(** [a > b] and [a <= b] on numbers. *)
Definition num_gt (a b : Q) : bool := negb (Qle_bool a b).
Definition num_le (a b : Q) : bool := Qle_bool a b.

(** [Math.round]: the nearest integer, a tie going up. *)
Definition round (q : Q) : Z := Qfloor (q + (1 # 2)).

(** [Array.prototype.sort] with a numeric comparator: the sort is stable,
    so for a comparator that is the difference of a key its result is the
    one insertion gives. *)
Fixpoint insert_sorted {A : Type} (cmp : A -> A -> Q) (a : A) (l : list A)
    : list A :=
  match l with
  | [] => [a]
  | b :: l' =>
    if num_le (cmp a b) 0 then a :: l else b :: insert_sorted cmp a l'
  end.

Definition sort {A : Type} (cmp : A -> A -> Q) (l : list A) : list A :=
  foldr (insert_sorted cmp) [] l.

(** [/[\x00-\x1F\x7F-\x9F]/g] and [/\s+/g] *)
Definition controlRegex : regex := cls [CRange 0 31; CRange 127 159].
Definition spacesRegex : regex := plus space.

(** [/\n\s*\n/g] and [/\n+/g] *)
Definition blankLinesRegex : regex := seq [Chr 10; star space; Chr 10].
Definition newlinesRegex : regex := plus (Chr 10).

(** *** The PDF extractor module *)
Module PdfExtractor.

(** Five rules, no guard on the argument. *)
Definition sanitizePersonalData (text : jsstring) : jsstring :=
  let text := redactCard text in
  let text := redactAccount text in
  let text := redactClabe text in
  let text := redactEmail text in
  let text := redactName text in
  text.

Definition bankCharMap : list (N * jsstring) :=
  commonCharMap ++ punctuationEntries.

(** [if (bankCharMap[char]) ... else ...] *)
Definition normalizeBankText (text : jsstring) : jsstring :=
  match text with
  | [] => []
  | _ :: _ => bankCorrections (substitute bankCharMap text)
  end.

(** The line builder of [extractTextFromPDF]: the loop over the items
    of one page as the sort has left them, then the last line. [lastY]
    starts as [null]. *)
Record lines : Type := Lines {
  fullText : jsstring;
  lineText : jsstring;
  lastY : option Q
}.

Definition normalizeItem (s : jsstring) : jsstring :=
  trim (replace_all false spacesRegex [RLit (lit " ")]
          (replace_all false controlRegex [] s)).

Definition addItem (st : lines) (item : TextItem) : lines :=
  let normalizedText := normalizeItem (str item) in
  if Nat.eqb (length normalizedText) 0 then st   (* continue *)
  else
    let st :=
      match lastY st with
      | Some last =>
        if num_gt (Qabs (transform5 item - last)) 5
        then Lines (fullText st ++ trim (lineText st) ++ NEWLINE) []
                   (lastY st)
        else st
      | None => st
      end in
    let lineText :=
      if Nat.ltb 0 (length (lineText st)) then lineText st ++ lit " "
      else lineText st in
    Lines (fullText st) (lineText ++ normalizedText)
          (Some (transform5 item)).

Definition lastLine (st : lines) : jsstring :=
  if truthy (trim (lineText st))
  then fullText st ++ trim (lineText st) ++ NEWLINE
  else fullText st.

Definition pageLines (sortedItems : list TextItem) : jsstring :=
  lastLine (fold_left addItem sortedItems (Lines [] [] None)).

(** The comparator handed to [sort]: by x when the heights are less than
    five apart, else by height, the higher first. It is not an ordering
    (being less than five apart is not transitive), so what [sort] makes
    of it is left to the engine; [sortItems] below stands for the sort,
    and [insertionSort] is one such engine, for the examples. *)
Definition compareItems (a b : TextItem) : Q :=
  if num_gt 5 (Qabs (transform5 a - transform5 b))
  then (transform4 a - transform4 b)%Q
  else (transform5 b - transform5 a)%Q.

Definition insertionSort (items : list TextItem) : list TextItem :=
  sort compareItems items.

(** The text of one page: the sort, the loop and the last line. *)
Definition pageText (sortItems : list TextItem -> list TextItem)
    (items : list TextItem) : jsstring :=
  pageLines (sortItems items).

(** ['\n--- Pagina ' + i + ' ---\n\n'], with 225 for U+00E1. *)
Definition pageMarker (i : nat) : jsstring :=
  NEWLINE ++ lit "--- P" ++ [225] ++ lit "gina " ++ num_to_string i
          ++ lit " ---" ++ NEWLINE ++ NEWLINE.

(** The pages of the document in turn; [fullText] runs through all of
    them. *)
Fixpoint pagesText (sortItems : list TextItem -> list TextItem)
    (i : nat) (pages : list (list TextItem)) (fullText : jsstring)
    : jsstring :=
  match pages with
  | [] => fullText
  | items :: pages' =>
    let fullText :=
      lastLine (fold_left addItem (sortItems items)
                          (Lines fullText [] None)) in
    pagesText sortItems (S i) pages' (fullText ++ pageMarker i)
  end.

(** The [charMap] of the final clean-up, keyed by code unit: copyright,
    registered, degree, plus-minus, superscripts two and three, micro
    (given the Greek letter mu, 956), times, division, no-break space. *)
Definition charMap : list (N * jsstring) :=
  [(169, lit "(c)"); (174, lit "(r)"); ent 176 176; ent 177 177;
   ent 178 178; ent 179 179; ent 181 956; (215, lit "x");
   (247, lit "/"); (160, lit " ")].

(** [/[\u0080-\u009F\u00A0-\u00FF]/g] *)
Definition latin1Regex : regex := cls [CRange 128 159; CRange 160 255].

(** [match => charMap[match] || ' '] *)
Definition mapSpecial (matched : jsstring) : jsstring :=
  match matched with
  | [c] =>
    match obj_get charMap c with
    | Some v => if truthy v then v else lit " "
    | None => lit " "
    end
  | _ => lit " "
  end.

(** [/ ([.,;:!?])/g] *)
Definition spaceBeforeMarkRegex : regex :=
  seq [Chr 32; Group 1 (cls (chars_of ".,;:!?"))].

(** The final clean-up of [fullText]. *)
Definition cleanText (fullText : jsstring) : jsstring :=
  let fullText :=
    replace_all false blankLinesRegex [RLit (NEWLINE ++ NEWLINE)] fullText in
  let fullText := replace_all_fn false latin1Regex mapSpecial fullText in
  let fullText := replace_all false spacesRegex [RLit (lit " ")] fullText in
  let fullText := replace_all false spaceBeforeMarkRegex [RRef 1] fullText in
  replace_all false blankLinesRegex [RLit (NEWLINE ++ NEWLINE)] fullText.

(** [extractTextFromPDF], from the loaded document on. *)
Definition extractTextFromPDF (sortItems : list TextItem -> list TextItem)
    (pages : list (list TextItem)) : jsstring :=
  cleanText (pagesText sortItems 1 pages []).

End PdfExtractor.

(** *** The simple extractor module *)
Module SimpleTextExtract.

(** [if (!text) return ""] first, then four rules. *)
Definition sanitizePersonalData (text : jsstring) : jsstring :=
  match text with
  | [] => []
  | _ :: _ =>
    let text := redactCard text in
    let text := redactAccount text in
    let text := redactClabe text in
    let text := redactEmail text in
    text
  end.

Definition bankCharMap : list (N * jsstring) := commonCharMap.

(** [bankCharMap[char] || char] *)
Definition normalizeBankText (text : jsstring) : jsstring :=
  match text with
  | [] => []
  | _ :: _ => bankCorrections (substitute bankCharMap text)
  end.

(** The line builder of its [extractTextFromPDF]: [lastY] starts
    undefined; an item whose text is blank is passed over. *)
Record lines : Type := Lines {
  pageText : jsstring;
  lineText : jsstring;
  lastY : option Q
}.

Definition addItem (st : lines) (item : TextItem) : lines :=
  let y := transform5 item in
  let text := str item in              (* item.str || '' *)
  if Nat.eqb (length (trim text)) 0 then st   (* continue *)
  else
    let st :=
      match lastY st with
      | Some last =>
        if num_gt (Qabs (y - last)) 5
        then Lines (pageText st ++ trim (lineText st) ++ NEWLINE) []
                   (lastY st)
        else st
      | None => st
      end in
    let lineText :=
      if truthy (lineText st) && truthy text then lineText st ++ lit " "
      else lineText st in
    Lines (pageText st) (lineText ++ text) (Some y).

Definition lastLine (st : lines) : jsstring :=
  if truthy (trim (lineText st))
  then pageText st ++ trim (lineText st)
  else pageText st.

Definition pageLines (items : list TextItem) : jsstring :=
  lastLine (fold_left addItem items (Lines [] [] None)).

(** [`\n\n--- Pagina ${pageNum} ---\n\n`] *)
Definition pageMarker (pageNum : nat) : jsstring :=
  NEWLINE ++ NEWLINE ++ lit "--- P" ++ [225] ++ lit "gina "
          ++ num_to_string pageNum ++ lit " ---" ++ NEWLINE ++ NEWLINE.

(** The loop over the pages; [sortItems] as in the PDF extractor. *)
Fixpoint pagesText (sortItems : list TextItem -> list TextItem)
    (pageNum : nat) (pages : list (list TextItem)) (fullText : jsstring)
    : jsstring :=
  match pages with
  | [] => fullText
  | items :: pages' =>
    let pageText := pageLines (sortItems items) in
    pagesText sortItems (S pageNum) pages'
              (fullText ++ trim pageText ++ pageMarker pageNum)
  end.

(** [/[\x00-\x09\x0B\x0C\x0E-\x1F\x7F-\x9F]/g] *)
Definition nonPrintableRegex : regex :=
  cls [CRange 0 9; CChar 11; CChar 12; CRange 14 31; CRange 127 159].

Definition cleanText (fullText : jsstring) : jsstring :=
  let cleanedText :=
    replace_all false spacesRegex [RLit (lit " ")] fullText in
  let cleanedText :=
    replace_all false blankLinesRegex [RLit (NEWLINE ++ NEWLINE)]
                cleanedText in
  let cleanedText := replace_all false nonPrintableRegex [] cleanedText in
  trim cleanedText.

(** [extractTextFromPDF], from the loaded document on. *)
Definition extractTextFromPDF (sortItems : list TextItem -> list TextItem)
    (pages : list (list TextItem)) : jsstring :=
  cleanText (pagesText sortItems 1 pages []).

End SimpleTextExtract.

(** *** The enhanced extractor module *)
Module EnhancedExtractor.

Definition rowTolerance : Q := 3.

(** The [for (const row of rows)] search: [item] is pushed onto the first
    non-empty row whose first item is within the tolerance; [None] when
    no row takes it. *)
Fixpoint pushIntoRow (pageHeight : Q) (item : TextItem)
    (rows : list (list TextItem)) : option (list (list TextItem)) :=
  match rows with
  | [] => None
  | row :: rows' =>
    match row with
    | first :: _ =>
      let y := (pageHeight - transform5 item)%Q in
      let rowY := (pageHeight - transform5 first)%Q in
      if num_le (Qabs (rowY - y)) rowTolerance
      then Some ((row ++ [item]) :: rows')
      else cons row <$> pushIntoRow pageHeight item rows'
    | [] => cons row <$> pushIntoRow pageHeight item rows'
    end
  end.

Definition placeItem (pageHeight : Q) (rows : list (list TextItem))
    (item : TextItem) : list (list TextItem) :=
  match pushIntoRow pageHeight item rows with
  | Some rows' => rows'
  | None => rows ++ [[item]]
  end.

(** [pageView] is the page's view box; [pageView[3]] its height. *)
Definition organizeIntoRows (textItems : list TextItem)
    (pageView : Q * Q * Q * Q) : list (list TextItem) :=
  let pageHeight := snd pageView in
  let sortedItems :=
    sort (fun a b =>
            (pageHeight - transform5 b) - (pageHeight - transform5 a))%Q
         textItems in
  fold_left (placeItem pageHeight) sortedItems [].

(** One row: sorted left to right, then joined with spaces for the gap
    from the end of the previous item. *)
Definition appendItem (acc : jsstring * Q) (item : TextItem) : jsstring * Q :=
  let '(rowText, lastEndX) := acc in
  let itemStartX := transform4 item in
  let rowText :=
    if num_gt lastEndX 0 then
      let spacesNeeded := round ((itemStartX - lastEndX) / 4) in
      if (0 <? spacesNeeded)%Z
      then rowText ++ repeat 32 (Z.to_nat (Z.min spacesNeeded 10))
      else rowText
    else rowText in
  (rowText ++ str item, (itemStartX + default 0 (width item))%Q).

Definition rowToText (row : list TextItem) : jsstring :=
  let row := sort (fun a b => transform4 a - transform4 b)%Q row in
  fst (fold_left appendItem row ([], 0%Q)).

(** The separator handed to [join] is written ['\\n'] in the source: a
    backslash and the letter n. *)
Definition ROW_SEPARATOR : jsstring := [92; 110].

Definition processTextContent (items : list TextItem)
    (pageView : Q * Q * Q * Q) : jsstring :=
  match items with
  | [] => []
  | _ :: _ =>
    let rows := organizeIntoRows items pageView in
    join ROW_SEPARATOR (List.map rowToText rows)
  end.

(** The page loop of [enhancedExtractTextFromPDF]: a page is its items
    and its view box, or [None] when reading it threw; such a page is
    logged and passed over. The separators are written ['\\n'] here
    too. *)
Definition pageSeparator (pageNum : nat) : jsstring :=
  ROW_SEPARATOR ++ lit "--- P" ++ [225] ++ lit "gina "
                ++ num_to_string pageNum ++ lit " ---" ++ ROW_SEPARATOR.

Fixpoint pagesText (pageNum : nat)
    (pages : list (option (list TextItem * (Q * Q * Q * Q))))
    (fullText : jsstring) : jsstring :=
  match pages with
  | [] => fullText
  | page :: pages' =>
    let fullText :=
      match page with
      | Some (items, pageView) =>
        let pageText := processTextContent items pageView in
        let fullText :=
          if Nat.ltb 1 pageNum then fullText ++ pageSeparator pageNum
          else fullText in
        fullText ++ pageText ++ ROW_SEPARATOR
      | None => fullText
      end in
    pagesText (S pageNum) pages' fullText
  end.




(** [/(\d)(\d{3})([.,]\d{2})/g] *)
Definition amountRegex : regex :=
  seq [Group 1 digit; Group 2 (times digit 3);
       Group 3 (seq [cls (chars_of ".,"); times digit 2])].









End EnhancedExtractor.

(** ** The remote OCR service *)

(** The parsed JSON body of a response of the OCR service. *)
Record body : Type := Body {
  IsErroredOnProcessing : bool;
  ErrorMessage : jsstring;
  ParsedResults : option (list jsstring)   (* the ParsedText of each *)
}.

(** What [fetch] and [response.json()] give: a rejection, or a status
    with the body when it parses. *)
Inductive response : Type :=
| Failed (message : jsstring)
| Http (ok : bool) (statusText : jsstring) (json : option body).

(** A [File]: name, MIME type and size in bytes. *)
Record File : Type := MkFile {
  name : jsstring;
  type : jsstring;
  size : N
}.

(** *** The OCR API client ([ocrApi.js]) *)
Module OcrApi.

(** What the client does to the outside world, in order. Progress
    callbacks and console output are left out. *)
Inductive event : Type :=
| Render (pageNum : nat)            (* pdfPageToImage *)
| Fetch (base64Image : jsstring)    (* the POST to the OCR API *)
| Sleep (ms : N).                   (* setTimeout *)

(** The errors it throws, one constructor for each [throw]. *)
Inductive error : Type :=
| InvalidImage                       (* 'Datos de imagen no validos' *)
| HttpError (statusText : jsstring)  (* 'Error en API OCR: ...' *)
| ProcessingError (message : jsstring)
| NoParsedText                       (* 'No se pudo extraer texto ...' *)
| Rejected (message : jsstring).     (* a rejected promise of the platform *)

Definition M (A : Type) : Type := list event -> list event * (error + A).

Section Client.

(** The service and the rasteriser answer as they like; each sees the
    history so far. *)
Variable api : list event -> jsstring -> response.
Variable pdfPageToImage : list event -> nat -> error + jsstring.

(** The body of the [try]: one request. *)
Definition attempt (imageBase64 : jsstring) : M jsstring := fun h =>
  match nth_error (split 44 imageBase64) 1 with
  | Some base64Data =>
    if truthy base64Data then
      let h' := h ++ [Fetch base64Data] in
      match api h base64Data with
      | Failed message => (h', inl (Rejected message))
      | Http false statusText _ => (h', inl (HttpError statusText))
      | Http true _ None => (h', inl (Rejected []))
      | Http true _ (Some result) =>
        if IsErroredOnProcessing result
        then (h', inl (ProcessingError (ErrorMessage result)))
        else
          match ParsedResults result with
          | Some (parsedText :: _) => (h', inr parsedText)
          | _ => (h', inl NoParsedText)
          end
      end
    else (h, inl InvalidImage)
  | None => (h, inl InvalidImage)
  end.

(** The [catch]: while [retryCount < 2], wait a second and call again. *)
Equations extractTextFromImage (imageBase64 : jsstring) (retryCount : nat)
    (h : list event) : list event * (error + jsstring)
    by wf (2 - retryCount)%nat lt :=
  extractTextFromImage imageBase64 retryCount h
    with attempt imageBase64 h => {
    | (h', inr text) => (h', inr text);
    | (h', inl err) with lt_dec retryCount 2 => {
      | left _ =>
        extractTextFromImage imageBase64 (S retryCount) (h' ++ [Sleep 1000]);
      | right _ => (h', inl err) } }.
Next Obligation. lia. Qed.

(** ['\n--- Pagina ' + i + ' ---\n'], with 225 for U+00E1. *)
Definition pageSeparator (i : nat) : jsstring :=
  NEWLINE ++ lit "--- P" ++ [225] ++ lit "gina " ++ num_to_string i
          ++ lit " ---" ++ NEWLINE.

(** The [for] loop over the pages still to do. *)
Fixpoint forPages (pages : list nat) (completeText : jsstring)
    (h : list event) : list event * (error + jsstring) :=
  match pages with
  | [] => (h, inr completeText)
  | i :: pages' =>
    let h1 := h ++ [Render i] in
    match pdfPageToImage h i with
    | inl e => (h1, inl e)
    | inr imageBase64 =>
      match extractTextFromImage imageBase64 0 h1 with
      | (h2, inl e) => (h2, inl e)
      | (h2, inr extractedText) =>
        let completeText :=
          if Nat.ltb 1 i then completeText ++ pageSeparator i
          else completeText in
        forPages pages' (completeText ++ extractedText ++ NEWLINE) h2
      end
    end
  end.

(** [extractTextWithOCR], from the loaded document on. *)
Definition extractTextWithOCR (numPages : nat) : M jsstring := fun h =>
  let pagesToProcess := Nat.min numPages 4 in
  forPages (List.seq 1 pagesToProcess) [] h.

End Client.

(** [cleanOcrText]; [unnamed/part_001] has the same function, letter for
    letter. The patterns, in order: [/\s+/g], [/\n+/g], [/\$(s+)\d/g]
    (the class is written [s+], the letter), the zero-width characters,
    the dashes, the quotes, [/([.,;:!?])(\w)/g] and
    [/(\d)[\s,.](\d{3}([.,]\d{1,2})?)/g]. *)
Definition currencyRegex : regex :=
  seq [Chr 36; Group 1 (plus (Chr 115)); digit].
Definition invisibleRegex : regex := cls [CRange 8203 8205; CChar 65279].
Definition dashRegex : regex :=
  cls [CChar 8208; CChar 8209; CChar 8210; CChar 8211; CChar 8212;
       CChar 8213; CChar 8722].
Definition singleQuoteRegex : regex :=
  cls [CChar 39; CChar 39; CChar 8219].
Definition doubleQuoteRegex : regex :=
  cls [CChar 34; CChar 34; CChar 8222; CChar 8223].
Definition markThenWordRegex : regex :=
  seq [Group 1 (cls (chars_of ".,;:!?")); Group 2 (cls [CWord])].
Definition figureRegex : regex :=
  seq [Group 1 digit; cls (CSpace :: chars_of ",.");
       Group 2 (seq [times digit 3;
                     opt (Group 3 (seq [cls (chars_of ".,");
                                        between digit 1 2]))])].

Definition cleanOcrText (text : jsstring) : jsstring :=
  match text with
  | [] => []
  | _ :: _ =>
    let text := replace_all false spacesRegex [RLit (lit " ")] text in
    let text := replace_all false newlinesRegex [RLit NEWLINE] text in
    let text :=
      replace_all false currencyRegex [RLit (lit "$"); RRef 1] text in
    let text := replace_all false invisibleRegex [] text in
    let text := replace_all false dashRegex [RLit (lit "-")] text in
    let text := replace_all false singleQuoteRegex [RLit (lit "'")] text in
    let text := replace_all false doubleQuoteRegex [RLit [34]] text in
    let text :=
      replace_all false markThenWordRegex
                  [RRef 1; RLit (lit " "); RRef 2] text in
    let text :=
      replace_all false figureRegex [RRef 1; RLit (lit ","); RRef 2] text in
    trim text
  end.

End OcrApi.

(** *** The local OCR helper ([simpleOcr.js]) *)
Module SimpleOcr.

(** [/(\d)\s+(\d)/g] *)
Definition splitDigitsRegex : regex :=
  seq [Group 1 digit; plus space; Group 2 digit].

(** [/\$\s*(\d+)\s*,\s*(\d+)\s*\.\s*(\d+)/g] *)
Definition amountRegex : regex :=
  seq [Chr 36; star space; Group 1 (plus digit); star space; Chr 44;
       star space; Group 2 (plus digit); star space; Chr 46; star space;
       Group 3 (plus digit)].

(** The replacement is written ['$$1,$2.$3']: [$$] is a dollar sign, so
    what follows it is the digit 1 and a comma, not the first group. *)
Definition amountTemplate : list rpiece :=
  [RLit (lit "$"); RLit (lit "1,"); RRef 2; RLit (lit "."); RRef 3].

(** [/(\d{1,2})\s*\/\s*(\d{1,2})\s*\/\s*(\d{2,4})/g] *)
Definition dateRegex : regex :=
  seq [Group 1 (between digit 1 2); star space; Chr 47; star space;
       Group 2 (between digit 1 2); star space; Chr 47; star space;
       Group 3 (between digit 2 4)].

Definition cleanOcrText (text : jsstring) : jsstring :=
  match text with
  | [] => []
  | _ :: _ =>
    let text := replace_all false controlRegex [] text in
    let text := replace_all false spacesRegex [RLit (lit " ")] text in
    let text :=
      replace_all false blankLinesRegex [RLit (NEWLINE ++ NEWLINE)] text in
    let text := replace_all false splitDigitsRegex [RRef 1; RRef 2] text in
    let text := replace_all false amountRegex amountTemplate text in
    let text :=
      replace_all false dateRegex
                  [RRef 1; RLit (lit "/"); RRef 2; RLit (lit "/"); RRef 3]
                  text in
    trim text
  end.

End SimpleOcr.

(** *** The browser converter ([browserPdfConverter.js]) *)
Module BrowserPdfConverter.

(** The [options] argument of [compressImageInBrowser]; an absent key
    keeps its default. *)
Record options : Type := Options {
  quality : option Q;
  maxWidth : option Q;
  maxHeight : option Q
}.

Definition noOptions : options := Options None None None.

(** The resizing: the width is brought under [maxWidth] first, then the
    height under [maxHeight], each time scaling the other side. *)
Definition resize (maxWidth maxHeight width height : Q) : Q * Q :=
  let '(width, height) :=
    if num_gt width maxWidth
    then let ratio := (maxWidth / width)%Q in (maxWidth, (height * ratio)%Q)
    else (width, height) in
  if num_gt height maxHeight
  then let ratio := (maxHeight / height)%Q in ((width * ratio)%Q, maxHeight)
  else (width, height).

(** [name.replace('.', '_compressed.')]: the first dot only. *)
Fixpoint replaceFirst (c : N) (replacement s : jsstring) : jsstring :=
  match s with
  | [] => []
  | a :: s' =>
    if a =? c then replacement ++ s' else a :: replaceFirst c replacement s'
  end.

Inductive error : Type :=
| LoadError      (* 'Error al cargar imagen para compresion' *)
| BlobError.     (* 'Error al comprimir imagen' *)

Section Compress.

(** The image decoder gives the picture's width and height, or fails;
    the canvas encoder gives a blob's size, or no blob. *)
Variable decode : File -> option (Q * Q).
Variable toBlob : File -> Q * Q -> Q -> option N.

Definition compressImageInBrowser (imageFile : File) (o : options)
    : error + File :=
  let quality := default (7 # 10)%Q (quality o) in
  let maxWidth := default 1200%Q (maxWidth o) in
  let maxHeight := default 1800%Q (maxHeight o) in
  match decode imageFile with
  | None => inl LoadError
  | Some (width, height) =>
    match toBlob imageFile (resize maxWidth maxHeight width height) quality
    with
    | None => inl BlobError
    | Some blobSize =>
      inr (MkFile (replaceFirst 46 (lit "_compressed.") (name imageFile))
                  (lit "image/jpeg") blobSize)
    end
  end.

End Compress.
End BrowserPdfConverter.

(** *** The OCR service ([ocrService]) *)
Module OcrService.

Definition MAX_FILE_SIZE : N := 1024 * 1024.
Definition MAX_PREMIUM_FILE_SIZE : N := 5 * 1024 * 1024.

Inductive event : Type :=
| Render (pageNum : nat)    (* a page of the PDF drawn and encoded *)
| Compress (file : File)    (* an image handed to a compressor *)
| Transmit (file : File).   (* the POST of a file to the OCR API *)

(** The errors, one constructor for each [throw]; a message that embeds
    another error's message carries that error. *)
Inductive error : Type :=
| TooLarge (size : N)        (* 'Archivo demasiado grande para procesamiento' *)
| StillTooLarge              (* '... incluso despues de comprimir' *)
| CannotCompress (cause : error)   (* 'No se pudo comprimir para procesar: ' *)
| CompressionError (cause : BrowserPdfConverter.error)
| ApiError (statusText : jsstring) (* 'Error en la API OCR: ' *)
| ProcessingError (message : jsstring)
| Rejected (message : jsstring).   (* a rejected promise of the platform *)

Record page : Type := Page {
  pageNumber : nat;
  text : jsstring
}.

(** The object the service returns ([ocr] repeats [raw]; the overlay and
    the parsed body are left out). *)
Record result : Type := Result {
  raw : jsstring;
  bankType : jsstring;
  pages : list page;
  processedByPages : bool
}.

Definition DESCONOCIDO : jsstring := lit "Desconocido".
Definition str_eqb (a b : jsstring) : bool := bool_decide (a = b).

(** [`\n--- Pagina ${pageNumber} ---\n`], with 225 for U+00E1. *)
Definition pageHeader (pageNumber : nat) : jsstring :=
  NEWLINE ++ lit "--- P" ++ [225] ++ lit "gina " ++ num_to_string pageNumber
          ++ lit " ---" ++ NEWLINE.

(** [ParsedResults.forEach]: the texts joined, each followed by a line
    break, and the page list numbered from one. *)
Definition joinResults (results : list jsstring) : jsstring :=
  flat_map (fun pageText => pageText ++ NEWLINE) results.

Definition numberPages (results : list jsstring) : list page :=
  imap (fun index pageText => Page (index + 1) pageText) results.

Definition M (A : Type) : Type := list event -> list event * (error + A).

(** Evidence for the branch taken, kept for the recursion below. *)
Definition inspect {A : Type} (a : A) : {b : A | a = b} :=
  exist _ a eq_refl.

Section Service.

Variable toUpperCase : jsstring -> jsstring.

(** The outside world, each part seeing the history so far: the OCR
    service, the image decoder and canvas encoder behind
    [compressImageInBrowser], the page renderer (the size of the JPEG of a
    page, if it can be drawn) and the encoder behind the service's own
    [compressImage]. *)
Variable api : list event -> File -> response.
Variable decode : list event -> File -> option (Q * Q).
Variable toBlob : list event -> File -> Q * Q -> Q -> option N.
Variable renderPage : list event -> nat -> option N.
Variable compressImage : list event -> File -> option N.

(** The request and the reading of its answer, second half of
    [processIndividualFile]. *)
Definition send (file : File) : M result := fun h =>
  let h' := h ++ [Transmit file] in
  match api h file with
  | Failed message => (h', inl (Rejected message))
  | Http false statusText _ => (h', inl (ApiError statusText))
  | Http true _ None => (h', inl (Rejected []))
  | Http true _ (Some data) =>
    if IsErroredOnProcessing data
    then (h', inl (ProcessingError
                     (if truthy (ErrorMessage data) then ErrorMessage data
                      else lit "Error desconocido")))
    else
      let results := default [] (ParsedResults data) in
      let fullText := joinResults results in
      (h', inr (Result fullText (detectBankFromContent toUpperCase fullText)
                       (numberPages results) false))
  end.

Definition compressInBrowser (o : BrowserPdfConverter.options)
    (file : File) : M File := fun h =>
  (h ++ [Compress file],
   match BrowserPdfConverter.compressImageInBrowser
           (decode h) (toBlob h) file o with
   | inl e => inl (CompressionError e)
   | inr compressedFile => inr compressedFile
   end).

(** [{quality: 0.6, maxWidth: 1000, maxHeight: 1400}] *)
Definition aggressive : BrowserPdfConverter.options :=
  BrowserPdfConverter.Options (Some (6 # 10)%Q) (Some 1000%Q) (Some 1400%Q).

Equations processIndividualFile (file : File) (h : list event)
    : list event * (error + result)
    by wf (if (MAX_PREMIUM_FILE_SIZE <? size file)%N then 1 else 0)%nat lt :=
  processIndividualFile file h
    with inspect (MAX_PREMIUM_FILE_SIZE <? size file) => {
    | exist _ false _ => send file h;
    | exist _ true big with starts_with (lit "image/") (type file) => {
      | false => (h, inl (TooLarge (size file)));
      | true with compressInBrowser aggressive file h => {
        | (h1, inl e) => (h1, inl (CannotCompress e));
        | (h1, inr compressedFile)
            with inspect (size compressedFile <=? MAX_FILE_SIZE) => {
          | exist _ true small => processIndividualFile compressedFile h1;
          | exist _ false _ => (h1, inl (CannotCompress StillTooLarge)) } } } }.
Next Obligation.
  rewrite big.
  apply N.leb_le in small.
  destruct (MAX_PREMIUM_FILE_SIZE <? size compressedFile) eqn:E; [|lia].
  apply N.ltb_lt in E.
  unfold MAX_PREMIUM_FILE_SIZE, MAX_FILE_SIZE in *. lia.
Qed.

(** The running totals of the page loops. *)
Record totals : Type := Totals {
  allText : jsstring;
  allPageTexts : list page;
  combinedBankType : jsstring
}.

Definition noTotals : totals := Totals [] [] DESCONOCIDO.

Definition withPage (pageNumber : nat) (pageText : jsstring)
    (pageBank : jsstring) (t : totals) : totals :=
  Totals (allText t ++ pageHeader pageNumber ++ pageText)
         (allPageTexts t ++ [Page pageNumber pageText])
         (if str_eqb (combinedBankType t) DESCONOCIDO
             && negb (str_eqb pageBank DESCONOCIDO)
          then pageBank else combinedBankType t).

Definition withEmptyPage (pageNumber : nat) (t : totals) : totals :=
  Totals (allText t) (allPageTexts t ++ [Page pageNumber []])
         (combinedBankType t).

(** [imageSizeMB > 0.95], with [imageSizeMB = size / (1024 * 1024)]. *)
Definition nearLimit (file : File) : bool :=
  95 * (1024 * 1024) <? 100 * size file.

(** [{quality: 0.65, maxWidth: 1500}] *)
Definition pageOptions : BrowserPdfConverter.options :=
  BrowserPdfConverter.Options (Some (65 # 100)%Q) (Some 1500%Q) None.

(** One turn of the loop of [processImagePages]. *)
Definition imagePage (pageNumber : nat) (image : File) (t : totals)
    (h : list event) : list event * totals :=
  let '(h1, imageToProcess) :=
    if nearLimit image then
      match compressInBrowser pageOptions image h with
      | (h1, inr compressed) => (h1, compressed)
      | (h1, inl _) => (h1, image)          (* the original is tried *)
      end
    else (h, image) in
  match processIndividualFile imageToProcess h1 with
  | (h2, inr pageResult) =>
    let pageText := raw pageResult in
    if truthy (trim pageText)
    then (h2, withPage pageNumber pageText (bankType pageResult) t)
    else (h2, withEmptyPage pageNumber t)
  | (h2, inl _) => (h2, withEmptyPage pageNumber t)
  end.

Fixpoint imageLoop (i : nat) (imageFiles : list File) (t : totals)
    (h : list event) : list event * totals :=
  match imageFiles with
  | [] => (h, t)
  | image :: imageFiles' =>
    let '(h', t') := imagePage (i + 1) image t h in
    imageLoop (S i) imageFiles' t' h'
  end.

Definition processImagePages (imageFiles : list File) : M result :=
  fun h =>
    let '(h', t) := imageLoop 0 imageFiles noTotals h in
    (h', inr (Result (allText t) (combinedBankType t) (allPageTexts t) true)).

(** The service's own [compressImage], called with no [format]: a JPEG
    named after the part of the name before its first dot. *)
Definition compressLocally (imageFile : File) : M File := fun h =>
  (h ++ [Compress imageFile],
   match compressImage h imageFile with
   | None => inl (Rejected (lit "Error al generar blob comprimido"))
   | Some blobSize =>
     inr (MkFile (nth 0 (split 46 (name imageFile)) []
                  ++ lit "_compressed.jpg")
                 (lit "image/jpeg") blobSize)
   end).

(** One turn of the loop of [processPdfByPages]; an error anywhere in the
    turn is caught and the page is dropped. *)
Definition pdfPage (i : nat) (t : totals) (h : list event)
    : list event * totals :=
  let h1 := h ++ [Render i] in
  match renderPage h i with
  | None => (h1, t)
  | Some blobSize =>
    let imageFile :=
      MkFile (lit "page_" ++ num_to_string i ++ lit ".jpg")
             (lit "image/jpeg") blobSize in
    let '(h2, finalImageFile) :=
      if MAX_FILE_SIZE <? size imageFile
      then compressLocally imageFile h1
      else (h1, inr imageFile) in
    match finalImageFile with
    | inl _ => (h2, t)
    | inr finalImageFile =>
      match processIndividualFile finalImageFile h2 with
      | (h3, inr pageResult) =>
        (h3, withPage i (raw pageResult) (bankType pageResult) t)
      | (h3, inl _) => (h3, t)
      end
    end
  end.

Fixpoint pdfLoop (pageNums : list nat) (t : totals) (h : list event)
    : list event * totals :=
  match pageNums with
  | [] => (h, t)
  | i :: pageNums' =>
    let '(h', t') := pdfPage i t h in
    pdfLoop pageNums' t' h'
  end.

(** [processPdfByPages] from the loaded document on: the loop over the
    pages and the result. What comes before the loop, and can fail, is in
    [processPdfFile] below. *)
Definition processPdfByPages (numPages : nat) : M result := fun h =>
  let '(h', t) := pdfLoop (List.seq 1 numPages) noTotals h in
  (h', inr (Result (allText t) (combinedBankType t) (allPageTexts t) true)).

(** All of [processPdfByPages]: inside the outer [try], before the loop,
    the PDF library is loaded, the file is read and the document opened;
    [loadDocument] stands for the three and gives the number of pages or
    the error, which the outer [catch] reports and throws again. *)
Variable loadDocument : list event -> error + nat.

Definition processPdfFile : M result := fun h =>
  match loadDocument h with
  | inl e => (h, inl e)
  | inr numPages => processPdfByPages numPages h
  end.

End Service.
End OcrService.

(** ** Notions used in the statements and their proofs *)

(** The character before the position reached after consuming [w]. *)
Definition prev_after (p : option N) (w : jsstring) : option N :=
  match last w with Some c => Some c | None => p end.

(** [x] leads to [y] by consuming [w]. *)
Definition leads (x : mstate) (w : jsstring) (y : mstate) : Prop :=
  rest x = w ++ rest y /\ prev y = prev_after (prev x) w.

Definition reaches (x y : mstate) : Prop := exists w, leads x w y.

Definition count_digits (w : jsstring) : nat :=
  length (List.filter is_digit w).

(** One iteration of a digit rule consumes exactly one digit. *)
Definition one_digit (body : regex) : Prop :=
  forall a b, In b (run false body a) ->
    exists w, rest a = w ++ rest b /\ count_digits w = 1%nat.

Definition separators : regex := star_lazy (cls (chars_of " -")).

(** The three digit rules have one shape: a word boundary, between [mn]
    and [mx] iterations of a body, a word boundary. *)
Definition digit_rule (body : regex) (mn mx : nat) : regex :=
  seq [WordB; between body mn mx; WordB].

Fixpoint strip_prefix (k s : jsstring) : option jsstring :=
  match k, s with
  | [], _ => Some s
  | a :: k', b :: s' => if a =? b then strip_prefix k' s' else None
  | _ :: _, [] => None
  end.

Definition upperEsItems : list citem :=
  [range_of "A" "Z"; CChar 193; CChar 201; CChar 205; CChar 211;
   CChar 218; CChar 209].

(** Where a match of the name pattern can start: at [Titular], followed
    after an optional colon and any white space by a capital letter. *)
Definition name_start (s : jsstring) : bool :=
  match strip_prefix (lit "Titular") s with
  | Some s1 =>
    let s2 :=
      match s1 with
      | c :: s2 => if c =? 58 then s2 else s1
      | [] => s1
      end in
    match drop_while is_space s2 with
    | c :: _ => class_has upperEsItems c
    | [] => false
    end
  | None => false
  end.






Definition TWENTY_ONE_DIGITS : jsstring := lit "123456789012345678901".



Definition CLABE_EXAMPLE : jsstring := lit "123456789012345678".

Definition TWO_BANKS : jsstring := lit "Traspaso de bbva BBVA a HSBC".

(** The input left and every capture hold only characters in [P]. *)
Definition within (P : N -> Prop) (x : mstate) : Prop :=
  Forall P (rest x)
  /\ forall i v, caps x !! i = Some v -> Forall P v.

(** So does every literal piece of a replacement template. *)
Definition pieces_within (P : N -> Prop) (tmpl : list rpiece) : Prop :=
  forall l, In (RLit l) tmpl -> Forall P l.

(** [rewrites m k v]: wherever the character [k] stands in the input,
    the character loop with map [m] puts [v] in its place. *)
Definition rewrites (m : list (N * jsstring)) (k v : N) : Prop :=
  forall pre post,
    substitute m (pre ++ k :: post)
    = substitute m pre ++ v :: substitute m post.



(** The retry policy as the specification words it: a failed request is
    sent again after one second, [retries] times at most, and only the
    last failure is reported. *)
Fixpoint spec_retry (api : list OcrApi.event -> jsstring -> response)
    (retries : nat) (imageBase64 : jsstring) (h : list OcrApi.event)
    : list OcrApi.event * (OcrApi.error + jsstring) :=
  match OcrApi.attempt api imageBase64 h with
  | (h', inr text) => (h', inr text)
  | (h', inl err) =>
    match retries with
    | O => (h', inl err)
    | S retries' =>
      spec_retry api retries' imageBase64 (h' ++ [OcrApi.Sleep 1000])
    end
  end.

(** What one response amounts to for the client: the text of the first
    parsed result, or the error thrown on the way to it -- the request
    was rejected, the status is not ok, the body does not parse, the
    service reports an error, or there is no parsed result. *)
Definition answer (r : response) : OcrApi.error + jsstring :=
  match r with
  | Failed message => inl (OcrApi.Rejected message)
  | Http false statusText _ => inl (OcrApi.HttpError statusText)
  | Http true _ None => inl (OcrApi.Rejected [])
  | Http true _ (Some result) =>
    if IsErroredOnProcessing result
    then inl (OcrApi.ProcessingError (ErrorMessage result))
    else
      match ParsedResults result with
      | Some (parsedText :: _) => inr parsedText
      | _ => inl OcrApi.NoParsedText
      end
  end.

Definition is_fetch (e : OcrApi.event) : bool :=
  match e with OcrApi.Fetch _ => true | _ => false end.

Definition is_sleep (e : OcrApi.event) : bool :=
  match e with OcrApi.Sleep _ => true | _ => false end.

Definition is_error {E A : Type} (r : E + A) : bool :=
  match r with inl _ => true | inr _ => false end.

(** A service that rejects the first two requests and reads the third. *)
Definition third_time_lucky (h : list OcrApi.event) (d : jsstring)
    : response :=
  if Nat.ltb (length (List.filter is_fetch h)) 2
  then Failed (lit "Failed to fetch")
  else Http true [] (Some (Body false [] (Some [lit "Saldo 100"]))).

Definition PNG_DATA_URL : jsstring := lit "data:image/png;base64,iVBOR".

Import OcrService.

Definition compressed (new : list event) : list File :=
  flat_map (fun e => match e with Compress f => [f] | _ => [] end) new.


Definition a4_image (h : list event) (f : File) : option (Q * Q) :=
  Some (1240%Q, 1754%Q).
Definition heavy_blob (h : list event) (f : File) (dims : Q * Q) (q : Q)
    : option N := Some (1536 * 1024).




(** A number that is a whole number of at most fifty bits. Sums and
    differences of such numbers, their quarters and the rounding of
    these are exact in the double-precision arithmetic the program
    computes in, so on them the rationals of this model and the doubles
    of the program agree. *)
Definition whole (q : Q) : bool :=
  (Qden q =? 1)%positive && (Z.abs (Qnum q) <=? 2 ^ 50)%Z.

(** A glyph placed on whole coordinates, with a whole width if any. *)
Definition on_grid (item : TextItem) : bool :=
  whole (transform4 item) && whole (transform5 item)
  && match width item with Some w => whole w | None => true end.

Definition PAGE_VIEW : Q * Q * Q * Q := (0%Q, 0%Q, 612%Q, 792%Q).
Definition GLYPH_FECHA : TextItem := Item (lit "Fecha") 50 700 (Some 30%Q).
Definition GLYPH_SALDO : TextItem := Item (lit "Saldo") 50 100 (Some 30%Q).

(** A glyph that has text left once control characters are removed and
    white space is trimmed. *)
Definition has_text (item : TextItem) : bool :=
  negb (Nat.eqb (length (PdfExtractor.normalizeItem (str item))) 0).

Definition GLYPH_A : TextItem := Item (lit "A") 10 700 (Some 10%Q).
Definition GLYPH_B : TextItem := Item (lit "B") 104 700 (Some 10%Q).
Definition GLYPH_EMPTY : TextItem := Item [] 100 700 (Some 0%Q).
Definition GLYPH_BLANK : TextItem := Item (lit "  ") 100 700 None.

(** Three glyphs four points apart in height, the middle one blank. *)
Definition GLYPH_LOW : TextItem := Item (lit "A") 10 692 (Some 10%Q).
Definition GLYPH_MID : TextItem := Item (lit " ") 11 696 (Some 10%Q).
Definition GLYPH_HIGH : TextItem := Item (lit "C") 12 700 (Some 10%Q).

(** A property of the values the keys stand for, decided by looking up
    each written key. *)
Definition all_values (Q : jsstring -> bool) (m : list (N * jsstring))
    : bool :=
  forallb (fun e => match obj_get m (fst e) with
                    | Some v => Q v
                    | None => true
                    end) m.

(** The data URL has something between its first and second comma. *)
Definition has_payload (imageBase64 : jsstring) : bool :=
  match nth_error (split 44 imageBase64) 1 with
  | Some base64Data => truthy base64Data
  | None => false
  end.

Definition always_fails (h : list OcrApi.event) (d : jsstring) : response :=
  Failed [].

Definition page_text (p : page) : jsstring :=
  pageHeader (pageNumber p) ++ text p.

Definition matches_at (r : regex) (p : option N) (s : jsstring) : bool :=
  match exec false r p s with Some _ => true | None => false end.

(** A text in which the pattern [r] matches nowhere, the code unit
    before each position being the one that stands there ([p] before the
    first). *)
Definition quiet (r : regex) (p : option N) (s : jsstring) : Prop :=
  forall pre s', s = pre ++ s' ->
    run false r (MState (prev_after p pre) s' ∅) = [].

(** A row that holds a glyph. *)
Definition row_ok (row : list TextItem) : Prop := row <> [].

(** The number of code units the glyphs of a row carry. *)
Definition text_length (row : list TextItem) : nat :=
  list_sum (List.map (fun item => length (str item)) row).

Definition dotless (s : jsstring) : bool :=
  forallb (fun c => negb (c =? 46)) s.

Definition STATEMENT_SCAN : File :=
  MkFile (lit "estado.2024.png") (lit "image/png") (3 * 1024 * 1024).

(** A glyph whose text is not blank. *)
Definition not_blank (item : TextItem) : bool :=
  negb (Nat.eqb (length (trim (str item))) 0).

(** A code unit that is not white space, or is the plain space. *)
Definition plain_space (c : N) : bool := negb (is_space c) || (c =? 32).

(** A text on one line: the only white space in it is the plain space,
    so it holds no line feed, carriage return, tab or line separator. *)
Definition one_line (s : jsstring) : Prop :=
  Forall (fun c => plain_space c = true) s.

Definition one_lineb (s : jsstring) : bool := forallb plain_space s.

(** What a rule [[...]+ -> l] or [[...] -> l] leaves: code units outside
    the class, and those of [l]. *)
Definition left_by (ic neg : bool) (items : list citem) (l : jsstring)
    (c : N) : Prop :=
  class_matches ic neg items c = false \/ In c l.


(** The code units of an amount: digits, the dollar sign, the comma and
    the full stop. *)
Definition amount_char (c : N) : bool :=
  is_digit c || (c =? 36) || (c =? 44) || (c =? 46).

(* ===================================================================== *)
(** * Part II: lemmas and theorems *)
(* ===================================================================== *)

#[local] Arguments N.eqb : simpl never.
#[local] Arguments N.leb : simpl never.
#[local] Arguments N.ltb : simpl never.

Lemma prev_after_app p w1 w2 :
  prev_after (prev_after p w1) w2 = prev_after p (w1 ++ w2).
Proof.
  unfold prev_after. destruct w2 as [|c w2] using rev_ind.
  - now rewrite app_nil_r.
  - rewrite app_assoc, !last_snoc. reflexivity.
Qed.

Lemma leads_refl x : leads x [] x.
Proof. split; reflexivity. Qed.

Lemma leads_trans x w1 y w2 z :
  leads x w1 y -> leads y w2 z -> leads x (w1 ++ w2) z.
Proof.
  intros [H1 H2] [H3 H4]. split.
  - now rewrite H1, H3, app_assoc.
  - now rewrite H4, H2, prev_after_app.
Qed.

Lemma leads_advance x c s : rest x = c :: s -> leads x [c] (advance x c s).
Proof. intros H. split; simpl; [exact H | reflexivity]. Qed.

(** An invariant of the iterations of a quantifier: when [I k] holds
    after [k] iterations and an iteration takes [I k] to [I (S k)], the
    states a quantifier returns satisfy [I (k + j)] for some [j] within
    its bounds. *)
Lemma rep_inv (m : mstate -> list mstate) (I : nat -> mstate -> Prop)
    g fuel :
  (forall k a b, I k a -> In b (m a) -> I (S k) b) ->
  forall mn mx k x y,
  (forall M, mx = Some M -> (mn <= M)%nat) ->
  I k x -> In y (rep m g fuel mn mx x) ->
  exists j, (mn <= j)%nat /\ (forall M, mx = Some M -> (j <= M)%nat)
            /\ I (k + j)%nat y.
Proof.
  intros Hstep.
  induction fuel as [|fuel IH]; intros mn mx k x y Hwf Hx Hy; simpl in Hy;
    [easy|].
  assert (Hstay : mn = 0%nat -> exists j, (mn <= j)%nat
            /\ (forall M, mx = Some M -> (j <= M)%nat) /\ I (k + j)%nat x).
  { intros ->. exists 0%nat. rewrite Nat.add_0_r. repeat split; auto; lia. }
  destruct (is_zero mx) eqn:Hz.
  { destruct Hy as [<-|[]]. destruct mx as [[|M]|]; try discriminate.
    apply Hstay. specialize (Hwf 0%nat eq_refl). lia. }
  assert (Hmore : forall z,
    In z (flat_map (fun y0 =>
      if Nat.eqb mn 0 && Nat.eqb (length (rest y0)) (length (rest x))
      then [] else rep m g fuel (Nat.pred mn) (Nat.pred <$> mx) y0) (m x)) ->
    exists j, (mn <= j)%nat /\ (forall M, mx = Some M -> (j <= M)%nat)
            /\ I (k + j)%nat z).
  { intros z Hin. apply in_flat_map in Hin as (y0 & Hy0 & Hin).
    destruct (Nat.eqb mn 0 && _); [easy|].
    apply (IH _ _ (S k)) in Hin as (j & Hj1 & Hj2 & Hj3); eauto.
    - exists (S j). rewrite Nat.add_succ_r. repeat split; auto; [lia|].
      intros M ->. destruct M as [|M]; [discriminate|].
      specialize (Hj2 M eq_refl). lia.
    - intros M HM. destruct mx as [[|M']|]; try discriminate.
      injection HM as <-. specialize (Hwf _ eq_refl). simpl. lia. }
  destruct (Nat.eqb_spec mn 0) as [->|Hmn]; simpl in Hy.
  - destruct g.
    + apply in_app_iff in Hy as [Hy|[<-|[]]]; auto.
    + destruct Hy as [<-|Hy]; auto.
  - auto.
Qed.

(** Any relation that the iterated matcher respects, and that is
    reflexive and transitive, relates the start to every result. *)
Lemma rep_closed (m : mstate -> list mstate) (R : mstate -> mstate -> Prop)
    g fuel :
  (forall a, R a a) -> (forall a b c, R a b -> R b c -> R a c) ->
  (forall a b, In b (m a) -> R a b) ->
  forall mn mx x y, In y (rep m g fuel mn mx x) -> R x y.
Proof.
  intros Hrefl Htrans Hm.
  induction fuel as [|fuel IH]; intros mn mx x y Hy; simpl in Hy; [easy|].
  destruct (is_zero mx); [destruct Hy as [<-|[]]; auto|].
  assert (Hmore : forall z,
    In z (flat_map (fun y0 =>
      if Nat.eqb mn 0 && Nat.eqb (length (rest y0)) (length (rest x))
      then [] else rep m g fuel (Nat.pred mn) (Nat.pred <$> mx) y0) (m x)) ->
    R x z).
  { intros z Hz. apply in_flat_map in Hz as (y0 & Hy0 & Hz).
    destruct (Nat.eqb mn 0 && _); [easy|]. eauto. }
  destruct (negb (Nat.eqb mn 0)); [auto|].
  destruct g.
  - apply in_app_iff in Hy as [Hy|[<-|[]]]; auto.
  - destruct Hy as [<-|Hy]; auto.
Qed.

Lemma reaches_refl x : reaches x x.
Proof. exists []. apply leads_refl. Qed.

Lemma reaches_trans x y z : reaches x y -> reaches y z -> reaches x z.
Proof. intros [w1 H1] [w2 H2]. exists (w1 ++ w2). eapply leads_trans; eauto. Qed.

(** The matcher only moves forward, and keeps track of the character
    before the position it stands at. *)
Lemma run_reaches ic r : forall x y, In y (run ic r x) -> reaches x y.
Proof.
  induction r as [|p|neg items| | |a IHa b IHb|i r IHr|r IHr mn mx g];
    intros x y Hy; cbn [run] in Hy.
  - destruct Hy as [<-|[]]. apply reaches_refl.
  - destruct (rest x) as [|c s] eqn:E; [easy|].
    destruct (chr_matches ic p c); [|easy].
    destruct Hy as [<-|[]]. exists [c]. now apply leads_advance.
  - destruct (rest x) as [|c s] eqn:E; [easy|].
    destruct (class_matches ic neg items c); [|easy].
    destruct Hy as [<-|[]]. exists [c]. now apply leads_advance.
  - destruct (rest x) as [|c s] eqn:E; [easy|].
    destruct (is_line_terminator c); [easy|].
    destruct Hy as [<-|[]]. exists [c]. now apply leads_advance.
  - destruct (at_boundary x); [|easy]. destruct Hy as [<-|[]].
    apply reaches_refl.
  - apply in_flat_map in Hy as (z & Hz & Hy).
    eapply reaches_trans; eauto.
  - apply in_map_iff in Hy as (z & <- & Hz).
    destruct (IHr _ _ Hz) as [w Hw]. exists w. exact Hw.
  - eapply rep_closed; [apply reaches_refl | apply reaches_trans
                        | exact IHr | exact Hy].
Qed.

Lemma run_suffix ic r x y :
  In y (run ic r x) -> suffix (rest y) (rest x).
Proof. intros H. apply run_reaches in H as [w [H _]]. now exists w. Qed.

Lemma exec_run ic r p s y :
  exec ic r p s = Some y -> In y (run ic r (MState p s ∅)).
Proof.
  unfold exec. destruct (run ic r (MState p s ∅)) as [|z l]; [easy|].
  simpl. intros [= ->]. now left.
Qed.

Lemma exec_none ic r p s :
  run ic r (MState p s ∅) = [] -> exec ic r p s = None.
Proof. unfold exec. now intros ->. Qed.

(** ** Facts about the digit rules *)

Lemma count_digits_app a b :
  count_digits (a ++ b) = (count_digits a + count_digits b)%nat.
Proof. unfold count_digits. now rewrite List.filter_app, length_app. Qed.

Lemma count_digits_all ds :
  forallb is_digit ds = true -> count_digits ds = length ds.
Proof.
  unfold count_digits. induction ds as [|d ds IH]; simpl; [easy|].
  intros [Hd H]%andb_true_iff. rewrite Hd. simpl. now rewrite IH.
Qed.

Lemma one_digit_digit : one_digit digit.
Proof.
  intros a b Hb. cbn [digit cls run] in Hb.
  destruct (rest a) as [|c s] eqn:E; [easy|].
  destruct (class_matches false false [CDigit] c) eqn:Hc; [|easy].
  destruct Hb as [<-|[]]. exists [c]. split; [easy|].
  unfold class_matches, class_has in Hc. simpl in Hc.
  rewrite orb_false_r in Hc. unfold count_digits. simpl. now rewrite Hc.
Qed.

Lemma separators_no_digit a b :
  In b (run false separators a) ->
  exists w, rest a = w ++ rest b /\ count_digits w = 0%nat.
Proof.
  intros Hb. unfold separators, star_lazy in Hb. cbn [run] in Hb.
  eapply (rep_closed _ (fun x y => exists w, rest x = w ++ rest y
                                   /\ count_digits w = 0%nat)) in Hb; eauto.
  - intros x. now exists [].
  - intros x y z (w1 & H1 & C1) (w2 & H2 & C2). exists (w1 ++ w2).
    rewrite H1, H2, app_assoc, count_digits_app, C1, C2. easy.
  - intros x y Hy. cbn [cls run] in Hy.
    destruct (rest x) as [|c s] eqn:E; [easy|].
    destruct (class_matches false false (chars_of " -") c) eqn:Hc; [|easy].
    destruct Hy as [<-|[]]. exists [c]. split; [easy|].
    unfold class_matches, class_has, chars_of in Hc. simpl in Hc.
    unfold count_digits. simpl.
    destruct (is_digit c) eqn:Hd; [|easy]. exfalso.
    unfold is_digit, in_range in Hd.
    apply andb_true_iff in Hd as [H1 H2].
    apply N.leb_le in H1, H2.
    rewrite orb_false_r in Hc. apply orb_true_iff in Hc as [Hc|Hc];
      apply N.eqb_eq in Hc; lia.
Qed.

Lemma one_digit_card : one_digit (seq [digit; separators]).
Proof.
  intros a b Hb. cbn [seq foldr run] in Hb.
  apply in_flat_map in Hb as (z & Hz & Hb).
  apply in_flat_map in Hb as (z' & Hz' & Hb).
  destruct Hb as [<-|[]].
  apply one_digit_digit in Hz as (w1 & H1 & C1).
  apply separators_no_digit in Hz' as (w2 & H2 & C2).
  exists (w1 ++ w2). rewrite H1, H2, app_assoc, count_digits_app, C1, C2.
  easy.
Qed.

Lemma card_is_digit_rule :
  creditCardRegex = digit_rule (seq [digit; separators]) 13 16.
Proof. reflexivity. Qed.

Lemma account_is_digit_rule : accountNumberRegex = digit_rule digit 10 20.
Proof. reflexivity. Qed.

Lemma clabe_is_digit_rule : clabeRegex = digit_rule digit 18 18.
Proof. reflexivity. Qed.

Lemma digit_rule_match body mn mx x y :
  one_digit body -> (mn <= mx)%nat ->
  In y (run false (digit_rule body mn mx) x) ->
  at_boundary x = true /\ at_boundary y = true /\
  exists w, leads x w y /\ (mn <= count_digits w <= mx)%nat.
Proof.
  intros Hbody Hle Hy. unfold digit_rule, between in Hy.
  cbn [seq foldr run] in Hy.
  destruct (at_boundary x) eqn:Bx; [|easy].
  cbn [flat_map] in Hy. rewrite app_nil_r in Hy.
  apply in_flat_map in Hy as (z & Hz & Hy).
  destruct (at_boundary z) eqn:Bz; [|easy].
  cbn [flat_map app] in Hy. destruct Hy as [<-|[]].
  repeat split; auto.
  assert (Hr : In z (run false (Quant body mn (Some mx) true) x)) by exact Hz.
  apply run_reaches in Hr as [w Hw].
  exists w. split; [exact Hw|].
  destruct (rep_inv (run false body)
              (fun k s => exists v, rest x = v ++ rest s
                                    /\ count_digits v = k)
              true (S (mn + length (rest x))))
    with (mn := mn) (mx := Some mx) (k := 0%nat) (x := x) (y := z)
    as (j & Hj1 & Hj2 & v & Hv & Hc).
  - intros k a b (v & Hv & Hc) Hb.
    apply Hbody in Hb as (v1 & Hv1 & Hc1).
    exists (v ++ v1). split.
    + now rewrite Hv, Hv1, app_assoc.
    + rewrite count_digits_app. lia.
  - intros M [= <-]. exact Hle.
  - now exists [].
  - exact Hz.
  - destruct Hw as [Hw _]. rewrite Hw in Hv.
    apply app_inv_tail in Hv as <-. specialize (Hj2 _ eq_refl).
    simpl in Hc. lia.
Qed.

Lemma is_digit_word c : is_digit c = true -> is_word c = true.
Proof.
  unfold is_digit, is_word. intros ->. now rewrite !orb_true_r.
Qed.

Lemma count_digits_pos w :
  (1 <= count_digits w)%nat -> exists c, In c w /\ is_digit c = true.
Proof.
  unfold count_digits. intros H.
  destruct (List.filter is_digit w) as [|c l] eqn:E; [simpl in H; lia|].
  exists c. apply List.filter_In. rewrite E. now left.
Qed.

(** A digit rule matches nothing where no digit is left. *)
Lemma digit_rule_needs_digit body mn mx x :
  one_digit body -> (1 <= mn <= mx)%nat ->
  (forall c, In c (rest x) -> is_digit c = false) ->
  run false (digit_rule body mn mx) x = [].
Proof.
  intros Hbody Hle Hno.
  destruct (run false (digit_rule body mn mx) x) as [|y l] eqn:E; [easy|].
  exfalso.
  assert (Hy : In y (run false (digit_rule body mn mx) x))
    by (rewrite E; now left).
  apply digit_rule_match in Hy as (_ & _ & w & [Hw _] & Hc); auto; [|lia].
  destruct (count_digits_pos w) as (c & Hin & Hd); [lia|].
  rewrite (Hno c) in Hd; [easy|]. rewrite Hw. apply in_app_iff. now left.
Qed.

(** Strictly inside a run of digits there is no word boundary. *)
Lemma digit_rule_inside body mn mx c d s caps0 :
  is_digit c = true -> is_digit d = true ->
  run false (digit_rule body mn mx) (MState (Some c) (d :: s) caps0) = [].
Proof.
  intros Hc Hd. unfold digit_rule. cbn [seq foldr run].
  unfold at_boundary, word_before, word_after. cbn [prev rest].
  rewrite (is_digit_word c Hc), (is_digit_word d Hd). reflexivity.
Qed.

Lemma prev_after_cons p c w : prev_after p (c :: w) = prev_after (Some c) w.
Proof.
  unfold prev_after. destruct w as [|d w]; [easy|].
  rewrite last_cons_cons. destruct (last (d :: w)) eqn:E; [easy|].
  now apply last_None in E.
Qed.

Lemma prev_after_last p w c :
  last w = Some c -> prev_after p w = Some c.
Proof. unfold prev_after. now intros ->. Qed.

(** A match of a digit rule never overlaps a run of more digits than the
    rule admits: it ends before the run starts. *)
Lemma digit_rule_guard body mn mx p a ds post y :
  one_digit body -> (1 <= mn <= mx)%nat -> (mx < length ds)%nat ->
  forallb is_digit ds = true ->
  exec false (digit_rule body mn mx) p (a ++ ds ++ post) = Some y ->
  exists w a2, w <> [] /\ a = w ++ a2 /\ rest y = a2 ++ ds ++ post.
Proof.
  intros Hbody Hle Hlen Hds Hy. apply exec_run in Hy.
  apply digit_rule_match in Hy as (_ & By & w & [Hw Hp] & Hc); auto; [|lia].
  simpl in Hw, Hp.
  assert (Hwne : w <> []).
  { intros ->. unfold count_digits in Hc. simpl in Hc. lia. }
  apply app_eq_app in Hw as [l [[-> Hl]|[-> Hl]]].
  { exists w, l. auto. }
  destruct l as [|e l].
  { exists a, []. rewrite app_nil_r in *. simpl in Hl. auto. }
  exfalso.
  apply app_eq_app in Hl as [l2 [[H1 H2]|[H1 H2]]].
  2:{ (* the whole run lies inside the match *)
    rewrite H1, !count_digits_app, (count_digits_all ds) in Hc by exact Hds.
    lia. }
  (* the match ends inside the run *)
  destruct l2 as [|d l2].
  { rewrite app_nil_r in H1. subst ds.
    rewrite !count_digits_app, (count_digits_all (e :: l)) in Hc
      by exact Hds. lia. }
  rewrite H1, forallb_app in Hds. apply andb_true_iff in Hds as [Hl Hd2].
  simpl in Hd2. apply andb_true_iff in Hd2 as [Hd _].
  destruct (last (e :: l)) as [c|] eqn:El.
  2:{ apply last_None in El. discriminate. }
  assert (Hcd : is_digit c = true).
  { rewrite forallb_forall in Hl. apply Hl.
    apply last_Some in El as [l' ->]. apply in_app_iff. right. now left. }
  unfold at_boundary, word_before, word_after in By.
  rewrite Hp, H2 in By.
  rewrite (prev_after_last _ _ c) in By.
  - cbn [app] in By.
    now rewrite (is_digit_word c Hcd), (is_digit_word d Hd) in By.
  - rewrite last_app, El. reflexivity.
Qed.

(** ** Facts about the global replace *)

(** Where the pattern matches at no position, nothing is replaced. *)
Lemma scan_no_match ic r tmpl s : forall p,
  (forall p' s', suffix s' s -> exec ic r p' s' = None) ->
  scan ic r tmpl 0 p s = s.
Proof.
  induction s as [|c s IH]; intros p H; simpl.
  - now rewrite H.
  - rewrite H by reflexivity. f_equal. apply IH.
    intros p' s' Hs. apply H. now apply suffix_cons_r.
Qed.

Lemma replace_all_no_match ic r tmpl s :
  (forall p' s', suffix s' s -> exec ic r p' s' = None) ->
  replace_all ic r tmpl s = s.
Proof. apply scan_no_match. Qed.

(** A segment [ds] that no match can overlap is copied as it stands. The
    first premise says that a match starting before the segment ends
    before it; the second, that none starts inside it. *)
Section Protected.

Variables (ic : bool) (r : regex) (tmpl : list rpiece).
Variables (ds post : jsstring).

Hypothesis ends_before : forall p a y,
  exec ic r p (a ++ ds ++ post) = Some y ->
  exists w a2, w <> [] /\ a = w ++ a2 /\ rest y = a2 ++ ds ++ post.

Hypothesis none_inside : forall d1 c d2,
  ds = d1 ++ c :: d2 -> d2 <> [] ->
  exec ic r (Some c) (d2 ++ post) = None.

Lemma scan_inside d2 : forall d1 c,
  ds = d1 ++ c :: d2 ->
  scan ic r tmpl 0 (Some c) (d2 ++ post)
  = d2 ++ scan ic r tmpl 0 (prev_after (Some c) d2) post.
Proof.
  induction d2 as [|e d2 IH]; intros d1 c Hds; [reflexivity|].
  pose proof (none_inside d1 c (e :: d2) Hds ltac:(easy)) as Hnone.
  cbn [app scan] in *. rewrite Hnone.
  rewrite prev_after_cons. f_equal.
  apply (IH (d1 ++ [c])). now rewrite <- app_assoc.
Qed.

Lemma scan_at_start p :
  scan ic r tmpl 0 p (ds ++ post)
  = ds ++ scan ic r tmpl 0 (prev_after p ds) post.
Proof.
  assert (H : forall l, ds = l ->
    scan ic r tmpl 0 p (l ++ post)
    = l ++ scan ic r tmpl 0 (prev_after p l) post).
  { intros [|d ds'] Hl; [reflexivity|].
    pose proof (ends_before p []) as Hend. rewrite Hl in Hend.
    cbn [app scan] in *.
    destruct (exec ic r p (d :: ds' ++ post)) as [y|] eqn:Ey.
    { destruct (Hend _ eq_refl) as (w & a2 & Hw & Ha & _). now destruct w. }
    rewrite prev_after_cons. f_equal. now apply (scan_inside ds' []). }
  now apply H.
Qed.

Lemma scan_protected a : forall n p,
  (n <= length a)%nat ->
  exists a', scan ic r tmpl n p (a ++ ds ++ post)
             = a' ++ ds ++ scan ic r tmpl 0 (prev_after p (a ++ ds)) post.
Proof.
  induction a as [|c a IH]; intros n p Hn.
  - assert (n = 0%nat) as -> by (simpl in Hn; lia).
    exists []. apply scan_at_start.
  - cbn [app]. rewrite prev_after_cons. destruct n as [|n].
    + cbn [scan].
      destruct (exec ic r p (c :: a ++ ds ++ post)) as [y|] eqn:Ey.
      * apply (ends_before p (c :: a)) in Ey as (w & a2 & Hw & Ha & Hy).
        rewrite Hy.
        assert (Hlen : (length (c :: a ++ ds ++ post)
                        - length (a2 ++ ds ++ post))%nat = length w).
        { change (c :: a ++ ds ++ post) with ((c :: a) ++ ds ++ post).
          rewrite Ha, <- app_assoc, !length_app. lia. }
        rewrite Hlen. destruct w as [|c' w]; [easy|]. cbn [length].
        destruct (IH (length w) (Some c)) as [a' Ha'].
        { apply (f_equal length) in Ha. simpl in Ha.
          rewrite length_app in Ha. lia. }
        exists (expand tmpl {| prev := prev y; rest := a2 ++ ds ++ post;
                               caps := caps y |} ++ a').
        rewrite Ha', <- app_assoc.
        destruct y; reflexivity.
      * destruct (IH 0%nat (Some c)) as [a' Ha']; [lia|].
        exists (c :: a'). now rewrite Ha'.
    + cbn [scan]. apply IH. simpl in Hn. lia.
Qed.

End Protected.

(** ** The digit rules and long runs of digits *)

Lemma digit_rule_keeps_run body mn mx tmpl a ds post :
  one_digit body -> (1 <= mn <= mx)%nat -> (mx < length ds)%nat ->
  forallb is_digit ds = true ->
  exists a' post',
    replace_all false (digit_rule body mn mx) tmpl (a ++ ds ++ post)
    = a' ++ ds ++ post'.
Proof.
  intros Hbody Hle Hlen Hds. unfold replace_all.
  destruct (scan_protected false (digit_rule body mn mx) tmpl ds post)
    with (a := a) (n := 0%nat) (p := @None N) as [a' Ha'].
  - intros p b y Hy. eapply digit_rule_guard; eauto.
  - intros d1 c d2 Hd Hne. destruct d2 as [|d d2]; [easy|].
    apply exec_none. rewrite Hd, forallb_app in Hds.
    apply andb_true_iff in Hds as [_ Hds]. simpl in Hds.
    apply andb_true_iff in Hds as [Hc Hds].
    apply andb_true_iff in Hds as [Hd' _].
    now apply digit_rule_inside.
  - lia.
  - eauto.
Qed.

(** A text of digits only, longer than the rule admits, is left as is. *)
Lemma digit_rule_digits_only body mn mx tmpl ds :
  one_digit body -> (1 <= mn <= mx)%nat -> (mx < length ds)%nat ->
  forallb is_digit ds = true ->
  replace_all false (digit_rule body mn mx) tmpl ds = ds.
Proof.
  intros Hbody Hle Hlen Hds. unfold replace_all.
  rewrite <- (app_nil_r ds) at 1.
  rewrite (scan_at_start false (digit_rule body mn mx) tmpl ds []).
  - cbn [scan]. rewrite exec_none; [now rewrite app_nil_r|].
    apply digit_rule_needs_digit; auto. now intros c [].
  - intros p b y Hy. eapply digit_rule_guard; eauto.
  - intros d1 c d2 Hd Hne. destruct d2 as [|d d2]; [easy|].
    apply exec_none. rewrite Hd, forallb_app in Hds.
    apply andb_true_iff in Hds as [_ Hds]. simpl in Hds.
    apply andb_true_iff in Hds as [Hc Hds].
    apply andb_true_iff in Hds as [Hd' _].
    now apply digit_rule_inside.
Qed.


(** ** The e-mail rule *)

Lemma run_Seq ic a b x y :
  In y (run ic (Seq a b) x) <->
  exists z, In z (run ic a x) /\ In y (run ic b z).
Proof. cbn [run]. apply in_flat_map. Qed.

Lemma run_Chr_inv p x y :
  In y (run false (Chr p) x) -> exists s, rest x = p :: s /\ rest y = s.
Proof.
  cbn [run]. destruct (rest x) as [|c s]; [easy|].
  unfold chr_matches. destruct (N.eqb_spec p c) as [->|]; [|easy].
  intros [<-|[]]. now exists s.
Qed.

Lemma run_Class_inv neg items x y :
  In y (run false (Class neg items) x) ->
  exists c s, rest x = c :: s /\ rest y = s
              /\ xorb neg (class_has items c) = true.
Proof.
  cbn [run]. destruct (rest x) as [|c s]; [easy|].
  unfold class_matches. destruct (xorb neg (class_has items c)) eqn:E;
    [|easy].
  intros [<-|[]]. now exists c, s.
Qed.

(** The e-mail pattern matches only where an [@] is still to come. *)
Lemma email_needs_at x :
  ~ In 64 (rest x) -> run false emailRegex x = [].
Proof.
  intros Hno.
  destruct (run false emailRegex x) as [|y l] eqn:E; [easy|]. exfalso.
  assert (Hy : In y (run false emailRegex x)) by (rewrite E; now left).
  unfold emailRegex in Hy. cbn [seq foldr] in Hy.
  apply run_Seq in Hy as (z & Hz & Hy).
  apply run_Seq in Hy as (z' & Hz' & _).
  apply run_Chr_inv in Hz' as (s & Hs & _).
  apply run_suffix in Hz as [k Hk].
  apply Hno. rewrite Hk, Hs. apply in_app_iff. right. now left.
Qed.

Lemma redactEmail_no_at s : ~ In 64 s -> redactEmail s = s.
Proof.
  intros Hno. apply replace_all_no_match.
  intros p' s' [k ->]. apply exec_none, email_needs_at.
  simpl. intros H. apply Hno, in_app_iff. now right.
Qed.

(** ** The name rule *)

Lemma run_chars k : forall x y,
  In y (run false (seq (List.map Chr k)) x) ->
  strip_prefix k (rest x) = Some (rest y).
Proof.
  induction k as [|a k IH]; intros x y Hy; cbn [List.map seq foldr] in Hy.
  - cbn [run] in Hy. destruct Hy as [<-|[]]. reflexivity.
  - apply run_Seq in Hy as (z & Hz & Hy).
    apply run_Chr_inv in Hz as (s & Hs & Hz). rewrite Hs. cbn.
    rewrite N.eqb_refl, <- Hz. now apply IH.
Qed.

Lemma run_opt_inv r x y :
  In y (run false (opt r) x) -> y = x \/ In y (run false r x).
Proof.
  unfold opt. cbn [run]. cbn [rep Nat.add is_zero Nat.eqb negb andb].
  intros H. apply in_app_iff in H as [H|[<-|[]]]; [|now left].
  right. apply in_flat_map in H as (z & Hz & H).
  destruct (Nat.eqb _ _); [easy|].
  destruct (length (rest x)); cbn in H; [easy|].
  now destruct H as [<-|[]].
Qed.

Lemma run_spaces_inv x y :
  In y (run false (star space) x) ->
  exists w, rest x = w ++ rest y /\ forallb is_space w = true.
Proof.
  unfold star. cbn [run]. intros H.
  eapply (rep_closed _ (fun a b => exists w, rest a = w ++ rest b
                                   /\ forallb is_space w = true)) in H;
    eauto.
  - intros a. now exists [].
  - intros a b c (w1 & H1 & C1) (w2 & H2 & C2). exists (w1 ++ w2).
    rewrite H1, H2, app_assoc, forallb_app, C1, C2. easy.
  - intros a b Hb. apply run_Class_inv in Hb as (c & s & Hc & Hs & Hm).
    exists [c]. rewrite Hc, Hs. split; [easy|].
    cbn in Hm. rewrite orb_false_r in Hm. cbn. now rewrite Hm.
Qed.

Lemma drop_while_app {A} (f : A -> bool) w l :
  forallb f w = true -> drop_while f (w ++ l) = drop_while f l.
Proof.
  induction w as [|a w IH]; [easy|]. cbn.
  intros [-> H]%andb_true_iff. auto.
Qed.

Ltac bools :=
  repeat match goal with
  | H : _ || _ = true |- _ => apply orb_true_iff in H as [H|H]
  | H : _ && _ = true |- _ => apply andb_true_iff in H as [? ?]
  | H : (_ <=? _) = true |- _ => apply N.leb_le in H
  | H : (_ =? _) = true |- _ => apply N.eqb_eq in H
  | H : false = true |- _ => discriminate H
  end.

Lemma upper_not_space c :
  class_has upperEsItems c = true -> is_space c = false /\ c <> 58.
Proof.
  intros H. cbn in H. unfold in_range in H.
  split.
  - destruct (is_space c) eqn:E; [exfalso|easy].
    unfold is_space, in_range in E. bools; lia.
  - bools; lia.
Qed.

Lemma run_Group_inv ic i r x y :
  In y (run ic (Group i r) x) ->
  exists z, In z (run ic r x) /\ rest y = rest z /\ prev y = prev z.
Proof.
  cbn [run]. intros H. apply in_map_iff in H as (z & <- & Hz).
  now exists z.
Qed.

(** A match of the name pattern starts only at a [name_start]. *)
Lemma name_needs_start x :
  name_start (rest x) = false -> run false nameRegex x = [].
Proof.
  intros Hno.
  destruct (run false nameRegex x) as [|y l] eqn:E; [easy|]. exfalso.
  assert (Hy : In y (run false nameRegex x)) by (rewrite E; now left).
  unfold nameRegex in Hy. cbn [seq foldr] in Hy.
  apply run_Seq in Hy as (z1 & Hz1 & Hy).
  apply run_Seq in Hy as (z2 & Hz2 & Hy).
  apply run_Seq in Hy as (z3 & Hz3 & Hy).
  apply run_Seq in Hy as (z4 & Hz4 & _).
  apply run_chars in Hz1.
  apply run_spaces_inv in Hz3 as (w & Hw & Hsp).
  apply run_Group_inv in Hz4 as (z5 & Hz5 & _).
  apply run_Seq in Hz5 as (z6 & Hz6 & _).
  unfold nameWord in Hz6. cbn [seq foldr] in Hz6.
  apply run_Seq in Hz6 as (z7 & Hz7 & _).
  apply run_Class_inv in Hz7 as (c & s & Hc & _ & Hup).
  cbn [xorb] in Hup. change (class_has upperEsItems c = true) in Hup.
  destruct (upper_not_space c Hup) as [Hns Hn58].
  unfold name_start in Hno. rewrite Hz1 in Hno.
  assert (Hdrop : drop_while is_space (rest z2) = c :: s).
  { rewrite Hw, Hc, drop_while_app by exact Hsp. cbn. now rewrite Hns. }
  apply run_opt_inv in Hz2 as [->|Hz2].
  - destruct (rest z1) as [|c1 s1] eqn:E1.
    + cbn in Hdrop. discriminate.
    + destruct (N.eqb_spec c1 58) as [->|_].
      * cbn [drop_while] in Hdrop. change (is_space 58) with false in Hdrop.
        congruence.
      * rewrite Hdrop in Hno. congruence.
  - apply run_Chr_inv in Hz2 as (s2 & Hs2 & Hr2).
    rewrite Hs2, N.eqb_refl, <- Hr2, Hdrop in Hno. congruence.
Qed.

Lemma redactName_no_start s :
  (forall s', suffix s' s -> name_start s' = false) -> redactName s = s.
Proof.
  intros Hno. apply replace_all_no_match.
  intros p' s' Hs. apply exec_none, name_needs_start. now apply Hno.
Qed.

(** ** Text that is already redacted *)











Lemma digits_quiet ds :
  forallb is_digit ds = true ->
  ~ In 64 ds /\ forall s', suffix s' ds -> name_start s' = false.
Proof.
  intros H. split.
  - intros Hin. rewrite forallb_forall in H. now apply H in Hin.
  - intros s' [k ->]. rewrite forallb_app in H.
    apply andb_true_iff in H as [_ H].
    destruct s' as [|d s']; [reflexivity|]. cbn in H.
    apply andb_true_iff in H as [Hd _].
    unfold name_start. change (lit "Titular") with (84 :: lit "itular").
    cbn [strip_prefix]. destruct (N.eqb_spec 84 d) as [<-|]; easy.
Qed.

Lemma digit_rules_digits_only ds :
  forallb is_digit ds = true -> (20 < length ds)%nat ->
  redactCard ds = ds /\ redactAccount ds = ds /\ redactClabe ds = ds.
Proof.
  intros Hds Hlen. unfold redactCard, redactAccount, redactClabe.
  rewrite card_is_digit_rule, account_is_digit_rule, clabe_is_digit_rule.
  repeat split; apply digit_rule_digits_only;
    auto using one_digit_card, one_digit_digit; lia.
Qed.

(** C2, amended: the card, account and CLABE rules leave a run of more
    than twenty digits in place wherever it stands, whatever surrounds
    it; and a text that is nothing but such a run passes through both
    redactors unchanged. *)
Theorem long_digit_run_survives_digit_rules pre ds post :
  forallb is_digit ds = true -> (20 < length ds)%nat ->
  (exists pre' post',
     redactClabe (redactAccount (redactCard (pre ++ ds ++ post)))
     = pre' ++ ds ++ post')
  /\ PdfExtractor.sanitizePersonalData ds = ds
  /\ SimpleTextExtract.sanitizePersonalData ds = ds.
Proof.
  intros Hds Hlen. split; [|split].
  - unfold redactCard, redactAccount, redactClabe.
    rewrite card_is_digit_rule, account_is_digit_rule, clabe_is_digit_rule.
    destruct (digit_rule_keeps_run (seq [digit; separators]) 13 16
                [RLit TOKEN_TARJETA] pre ds post) as (a1 & p1 & ->);
      auto using one_digit_card; try lia.
    destruct (digit_rule_keeps_run digit 10 20
                [RLit TOKEN_CUENTA] a1 ds p1) as (a2 & p2 & ->);
      auto using one_digit_digit; try lia.
    destruct (digit_rule_keeps_run digit 18 18
                [RLit TOKEN_CLABE] a2 ds p2) as (a3 & p3 & ->);
      auto using one_digit_digit; try lia.
    exists a3, p3. reflexivity.
  - destruct (digits_quiet ds Hds) as [Hat Hn].
    destruct (digit_rules_digits_only ds Hds Hlen) as (H1 & H2 & H3).
    unfold PdfExtractor.sanitizePersonalData.
    rewrite H1, H2, H3, redactEmail_no_at, redactName_no_start; auto.
  - destruct (digits_quiet ds Hds) as [Hat Hn].
    destruct (digit_rules_digits_only ds Hds Hlen) as (H1 & H2 & H3).
    unfold SimpleTextExtract.sanitizePersonalData.
    destruct ds as [|d ds']; [reflexivity|].
    rewrite H1, H2, H3, redactEmail_no_at; auto.
Qed.

Lemma long_digit_run_survives_digit_rules_witness :
  (exists pre' post',
     redactClabe (redactAccount (redactCard
       (lit "Cuenta 4111 1111 1111 1111 y " ++ TWENTY_ONE_DIGITS
        ++ lit " fin")))
     = pre' ++ TWENTY_ONE_DIGITS ++ post')
  /\ PdfExtractor.sanitizePersonalData TWENTY_ONE_DIGITS
     = TWENTY_ONE_DIGITS
  /\ SimpleTextExtract.sanitizePersonalData TWENTY_ONE_DIGITS
     = TWENTY_ONE_DIGITS.
Proof.
  apply (long_digit_run_survives_digit_rules
           (lit "Cuenta 4111 1111 1111 1111 y ") TWENTY_ONE_DIGITS
           (lit " fin")).
  - reflexivity.
  - vm_compute. lia.
Defined.

(** C2, as claimed, fails: a run of twenty-one digits in front of an [@]
    is consumed by the e-mail rule as the local part of an address. *)
Lemma long_digit_run_redacted_as_email :
  PdfExtractor.sanitizePersonalData (TWENTY_ONE_DIGITS ++ lit "@x.yy")
  = TOKEN_CORREO
  /\ SimpleTextExtract.sanitizePersonalData (TWENTY_ONE_DIGITS ++ lit "@x.yy")
     = TOKEN_CORREO.
Proof. split; vm_compute; reflexivity. Qed.



(** C1: an eighteen-digit run is labelled as an account number by both
    redactors; the CLABE rule, applied after the account rule, finds
    nothing left to match. *)
Theorem clabe_labelled_as_account :
  PdfExtractor.sanitizePersonalData CLABE_EXAMPLE = TOKEN_CUENTA
  /\ SimpleTextExtract.sanitizePersonalData CLABE_EXAMPLE = TOKEN_CUENTA
  /\ redactClabe CLABE_EXAMPLE = TOKEN_CLABE.
Proof. repeat split; vm_compute; reflexivity. Qed.

(** ** Bank detection *)

Lemma starts_with_spec k : forall s,
  starts_with k s = true <-> exists b, s = k ++ b.
Proof.
  induction k as [|a k IH]; intros s; cbn.
  - split; [intros _; now exists s | easy].
  - destruct s as [|c s].
    + split; [easy | intros [b Hb]; discriminate].
    + rewrite andb_true_iff, N.eqb_eq, IH. split.
      * intros [-> [b ->]]. now exists b.
      * intros [b [= -> ->]]. split; [easy | now exists b].
Qed.

Lemma includes_spec s k :
  includes s k = true <-> exists a b, s = a ++ k ++ b.
Proof.
  induction s as [|c s IH]; cbn [includes].
  - rewrite orb_false_r, starts_with_spec. split.
    + intros [b Hb]. now exists [], b.
    + intros (a & b & H). destruct a; [now exists b|discriminate].
  - rewrite orb_true_iff, starts_with_spec, IH. split.
    + intros [[b Hb]|(a & b & ->)]; [now exists [], b | now exists (c :: a), b].
    + intros ([|a0 a] & b & H).
      * left. now exists b.
      * right. injection H as -> ->. now exists a, b.
Qed.

Lemma includes_upper up text k :
  keeps_keywords up -> k <> [] -> forallb is_keyword_char k = true ->
  includes text k = true -> includes (up text) k = true.
Proof.
  intros Hup Hne Hk (a & b & ->)%includes_spec.
  rewrite Hup by assumption.
  apply includes_spec. now exists (up a), (up b).
Qed.

Lemma upper_of_keyword_char c :
  is_keyword_char c = true -> upper_of c = [c].
Proof.
  intros Hc. unfold upper_of.
  assert (Hr : (48 <= c <= 57 \/ 65 <= c <= 90)%N).
  { unfold is_keyword_char, in_range in Hc. bools; lia. }
  unfold in_range.
  destruct (N.leb_spec 97 c); [lia|]. cbn [andb].
  repeat match goal with
  | |- context [(c =? ?n)] => destruct (N.eqb_spec c n); [lia|]
  end.
  destruct (N.leb_spec 224 c); [lia|]. reflexivity.
Qed.

Lemma latin_upper_keeps_keywords : keeps_keywords latin_upper.
Proof.
  intros a k b _ Hk. unfold latin_upper. rewrite !flat_map_app.
  f_equal. f_equal.
  induction k as [|c k IH]; [easy|]. cbn [forallb flat_map] in *.
  apply andb_true_iff in Hk as [Hc Hk].
  now rewrite IH, upper_of_keyword_char.
Qed.

(** C5: both detectors are the first-match search of the priority table
    over the upper-cased text, and a text that contains both [BBVA] and
    [HSBC] is tagged [HSBC]. Of [toUpperCase] this takes only that it
    leaves a keyword that stands in the text where it is. *)
Theorem detectBank_is_first_match (toUpperCase : jsstring -> jsstring) :
  keeps_keywords toUpperCase ->
  forall text,
    detectBankType toUpperCase text
    = spec_first_match spec_priority (toUpperCase text)
    /\ detectBankFromContent toUpperCase text
       = spec_first_match spec_priority (toUpperCase text)
    /\ (includes text (lit "BBVA") = true ->
        includes text (lit "HSBC") = true ->
        detectBankType toUpperCase text = lit "HSBC"
        /\ detectBankFromContent toUpperCase text = lit "HSBC").
Proof.
  intros Hup text.
  assert (H1 : detectBankType toUpperCase text
               = spec_first_match spec_priority (toUpperCase text)).
  { unfold detectBankType. cbn [spec_priority spec_first_match existsb].
    now rewrite !orb_false_r. }
  assert (H2 : detectBankFromContent toUpperCase text
               = spec_first_match spec_priority (toUpperCase text)).
  { unfold detectBankFromContent.
    cbn [spec_priority spec_first_match existsb].
    now rewrite !orb_false_r. }
  repeat split; auto.
  - rewrite H1. cbn [spec_priority spec_first_match existsb].
    now rewrite (includes_upper toUpperCase text (lit "HSBC")).
  - rewrite H2. cbn [spec_priority spec_first_match existsb].
    now rewrite (includes_upper toUpperCase text (lit "HSBC")).
Qed.

Lemma detectBank_is_first_match_witness :
  detectBankType latin_upper TWO_BANKS = lit "HSBC"
  /\ detectBankFromContent latin_upper TWO_BANKS = lit "HSBC".
Proof.
  apply (detectBank_is_first_match latin_upper latin_upper_keeps_keywords
           TWO_BANKS); reflexivity.
Defined.

(** ** Replacing never invents characters *)

Section Preserved.

Variable P : N -> Prop.

Lemma run_within ic r : forall x y,
  In y (run ic r x) -> within P x -> within P y.
Proof.
  assert (Hadv : forall x c s, rest x = c :: s -> within P x ->
                               within P (advance x c s)).
  { intros x c s E [H1 H2]. split; [|exact H2]. cbn. rewrite E in H1.
    now apply Forall_inv_tail in H1. }
  induction r as [|p|neg items| | |a IHa b IHb|i r IHr|r IHr mn mx g];
    intros x y Hy Hx; cbn [run] in Hy.
  - now destruct Hy as [<-|[]].
  - destruct (rest x) as [|c s] eqn:E; [easy|].
    destruct (chr_matches ic p c); [|easy]. destruct Hy as [<-|[]]. auto.
  - destruct (rest x) as [|c s] eqn:E; [easy|].
    destruct (class_matches ic neg items c); [|easy].
    destruct Hy as [<-|[]]. auto.
  - destruct (rest x) as [|c s] eqn:E; [easy|].
    destruct (is_line_terminator c); [easy|]. destruct Hy as [<-|[]]. auto.
  - destruct (at_boundary x); [|easy]. now destruct Hy as [<-|[]].
  - apply in_flat_map in Hy as (z & Hz & Hy). eauto.
  - apply in_map_iff in Hy as (z & <- & Hz).
    destruct (IHr _ _ Hz Hx) as [H1 H2]. split; [exact H1|]. cbn.
    intros j v Hv. destruct (decide (i = j)) as [->|Hij].
    + rewrite lookup_insert_eq in Hv. injection Hv as <-.
      unfold consumed. apply Forall_take, Hx.
    + rewrite lookup_insert_ne in Hv by exact Hij. eauto.
  - eapply (rep_closed _ (fun a b => within P a -> within P b)) in Hy; eauto.
Qed.

Lemma expand_within tmpl y :
  pieces_within P tmpl -> within P y -> Forall P (expand tmpl y).
Proof.
  intros Ht [_ Hc]. unfold expand. apply List.Forall_forall.
  intros c (piece & Hp & Hin)%in_flat_map.
  destruct piece as [l|i].
  - specialize (Ht l Hp). rewrite List.Forall_forall in Ht. auto.
  - destruct (caps y !! i) as [v|] eqn:E; [|easy].
    specialize (Hc i v E). rewrite List.Forall_forall in Hc. auto.
Qed.

Lemma scan_within ic r tmpl : pieces_within P tmpl ->
  forall s n p, Forall P s -> Forall P (scan ic r tmpl n p s).
Proof.
  intros Ht. induction s as [|c s IH]; intros n p Hs.
  - destruct n; cbn; [|constructor].
    destruct (exec ic r p []) as [y|] eqn:E; [|constructor].
    rewrite app_nil_r. apply expand_within; [exact Ht|].
    apply exec_run in E. eapply run_within; [exact E|].
    split; [constructor|]. intros i v Hv. cbn [caps] in Hv. now rewrite lookup_empty in Hv.
  - pose proof (Forall_inv Hs) as Hc. pose proof (Forall_inv_tail Hs) as Hs'.
    destruct n; cbn [scan]; [|auto].
    destruct (exec ic r p (c :: s)) as [y|] eqn:E.
    + apply Forall_app. split.
      * apply expand_within; [exact Ht|].
        apply exec_run in E. eapply run_within; [exact E|].
        split; [exact Hs|]. intros i v Hv. cbn [caps] in Hv. now rewrite lookup_empty in Hv.
      * destruct (_ - _)%nat; [constructor|]; auto.
    + constructor; auto.
Qed.

Lemma replace_all_within ic r tmpl s :
  pieces_within P tmpl -> Forall P s -> Forall P (replace_all ic r tmpl s).
Proof. intros Ht Hs. now apply scan_within. Qed.

End Preserved.

(** ** The character normaliser *)



Lemma obj_get_In entries c v :
  obj_get entries c = Some v -> In (c, v) entries.
Proof.
  induction entries as [|[k w] entries IH]; cbn; [easy|].
  destruct (obj_get entries c) as [later|].
  - intros [= <-]. right. now apply IH.
  - destruct (N.eqb_spec k c) as [->|]; [|easy]. intros [= <-]. now left.
Qed.

Lemma substitute_app m a b :
  substitute m (a ++ b) = substitute m a ++ substitute m b.
Proof. unfold substitute. apply flat_map_app. Qed.





(** ** The retry loop of the OCR API client *)

Lemma extractTextFromImage_spec api imageBase64 retryCount h :
  OcrApi.extractTextFromImage api imageBase64 retryCount h
  = spec_retry api (2 - retryCount) imageBase64 h.
Proof.
  funelim (OcrApi.extractTextFromImage api imageBase64 retryCount h).
  - destruct (2 - retryCount)%nat; cbn; now rewrite Heq.
  - match goal with IH : _ = spec_retry _ _ _ _ |- _ => rewrite IH end.
    replace (2 - retryCount)%nat with (S (2 - S retryCount)) by lia.
    cbn. now rewrite Heq0.
  - replace (2 - retryCount)%nat with 0%nat by lia. cbn. now rewrite Heq0.
Qed.

(** One attempt adds at most one request to the history, and no pause. *)
Lemma attempt_trace api imageBase64 h :
  exists new, fst (OcrApi.attempt api imageBase64 h) = h ++ new
              /\ (length (List.filter is_fetch new) <= 1)%nat
              /\ List.filter is_sleep new = [].
Proof.
  unfold OcrApi.attempt.
  destruct (nth_error _ 1) as [d|];
    [|exists []; rewrite app_nil_r; cbn; auto].
  destruct (truthy d); [|exists []; rewrite app_nil_r; cbn; auto].
  exists [OcrApi.Fetch d].
  destruct (api h d) as [m|[] st [b|]]; cbn; auto.
  destruct (IsErroredOnProcessing b); cbn; auto.
  destruct (ParsedResults b) as [[|t l]|]; cbn; auto.
Qed.

Lemma spec_retry_trace api imageBase64 retries : forall h,
  exists new,
    fst (spec_retry api retries imageBase64 h) = h ++ new
    /\ (length (List.filter is_fetch new) <= S retries)%nat
    /\ (exists pauses,
          List.filter is_sleep new = repeat (OcrApi.Sleep 1000) pauses
          /\ (pauses <= retries)%nat
          /\ (is_error (snd (spec_retry api retries imageBase64 h)) = true ->
              pauses = retries)).
Proof.
  induction retries as [|retries IH]; intros h; cbn [spec_retry];
    destruct (attempt_trace api imageBase64 h) as (new & Hh & Hf & Hs);
    destruct (OcrApi.attempt api imageBase64 h) as [h' [err|text]];
    cbn [fst snd] in *; subst h'.
  - exists new. repeat split; auto.
    exists 0%nat. rewrite Hs. repeat split; auto.
  - exists new. repeat split; auto.
    exists 0%nat. rewrite Hs. repeat split; auto.
  - destruct (IH ((h ++ new) ++ [OcrApi.Sleep 1000]))
      as (new' & Hh' & Hf' & pauses & Hp1 & Hp2 & Hp3).
    exists (new ++ [OcrApi.Sleep 1000] ++ new').
    rewrite Hh', <- !app_assoc. split; [reflexivity|].
    rewrite !List.filter_app, !length_app. cbn. split; [lia|].
    exists (S pauses). rewrite Hs, Hp1. cbn. repeat split; [lia|].
    intros H. f_equal. apply Hp3. now rewrite <- app_assoc.
  - exists new. split; [reflexivity|]. split; [lia|].
    exists 0%nat. rewrite Hs. split; [reflexivity|]. split; [lia|].
    intros H. discriminate H.
Qed.

Lemma attempt_answer api imageBase64 h d :
  nth_error (split 44 imageBase64) 1 = Some d -> truthy d = true ->
  OcrApi.attempt api imageBase64 h
  = (h ++ [OcrApi.Fetch d], answer (api h d)).
Proof.
  intros Hd Ht. unfold OcrApi.attempt, answer. rewrite Hd, Ht.
  destruct (api h d) as [m|[] st [b|]]; try reflexivity.
  destruct (IsErroredOnProcessing b); [reflexivity|].
  destruct (ParsedResults b) as [[|t l]|]; reflexivity.
Qed.

(** C6: the client sends a failed request again after a pause of one
    second, twice at most. Starting from [retryCount = 0] it behaves as
    the retry policy with two retries, makes at most three requests with
    pauses of exactly 1000 ms between attempts, and reports an error only
    when two pauses have gone by. For an image with a payload [d] the
    trace is exact: the first request; if it fails, a pause and the same
    request again; if that fails, a pause and a third request, whose
    answer -- text or error -- is the result. *)
Theorem extractTextFromImage_retries_twice api imageBase64 h :
  (OcrApi.extractTextFromImage api imageBase64 0 h
   = spec_retry api 2 imageBase64 h
   /\ exists new,
        fst (OcrApi.extractTextFromImage api imageBase64 0 h) = h ++ new
        /\ (length (List.filter is_fetch new) <= 3)%nat
        /\ exists pauses,
             List.filter is_sleep new = repeat (OcrApi.Sleep 1000) pauses
             /\ (pauses <= 2)%nat
             /\ (is_error
                   (snd (OcrApi.extractTextFromImage api imageBase64 0 h))
                 = true -> pauses = 2%nat))
  /\ forall d,
       nth_error (split 44 imageBase64) 1 = Some d -> truthy d = true ->
       let h1 := h ++ [OcrApi.Fetch d] in
       let h2 := h1 ++ [OcrApi.Sleep 1000; OcrApi.Fetch d] in
       let h3 := h2 ++ [OcrApi.Sleep 1000; OcrApi.Fetch d] in
       OcrApi.extractTextFromImage api imageBase64 0 h
       = match answer (api h d) with
         | inr text => (h1, inr text)
         | inl _ =>
           match answer (api (h1 ++ [OcrApi.Sleep 1000]) d) with
           | inr text => (h2, inr text)
           | inl _ => (h3, answer (api (h2 ++ [OcrApi.Sleep 1000]) d))
           end
         end.
Proof.
  rewrite extractTextFromImage_spec. cbn [Nat.sub].
  split; [split; [reflexivity | apply spec_retry_trace]|].
  intros d Hd Ht. cbn zeta. cbn [spec_retry].
  rewrite (attempt_answer api imageBase64 h d Hd Ht).
  destruct (answer (api h d)) as [e1|text1]; [|reflexivity].
  rewrite (attempt_answer api imageBase64 _ d Hd Ht).
  rewrite <- !app_assoc. cbn [app].
  destruct (answer (api (h ++ [OcrApi.Fetch d; OcrApi.Sleep 1000]) d))
    as [e2|text2]; [|reflexivity].
  rewrite (attempt_answer api imageBase64 _ d Hd Ht).
  rewrite <- !app_assoc. cbn [app].
  now destruct (answer _).
Qed.

Lemma extractTextFromImage_retries_twice_witness :
  OcrApi.extractTextFromImage third_time_lucky PNG_DATA_URL 0 []
  = ([OcrApi.Fetch (lit "iVBOR"); OcrApi.Sleep 1000;
      OcrApi.Fetch (lit "iVBOR"); OcrApi.Sleep 1000;
      OcrApi.Fetch (lit "iVBOR")], inr (lit "Saldo 100")).
Proof.
  apply (proj2 (extractTextFromImage_retries_twice third_time_lucky
                  PNG_DATA_URL []) (lit "iVBOR")); reflexivity.
Defined.


Section ServiceTraces.
Variable toUpperCase : jsstring -> jsstring.
Variable api : list event -> File -> response.
Variable decode : list event -> File -> option (Q * Q).
Variable toBlob : list event -> File -> Q * Q -> Q -> option N.
Variable renderPage : list event -> nat -> option N.
Variable compressImage : list event -> File -> option N.









End ServiceTraces.



(** ** The page loops *)





Section PdfByPages.

Variable toUpperCase : jsstring -> jsstring.
Variable api : list event -> File -> response.
Variable decode : list event -> File -> option (Q * Q).
Variable toBlob : list event -> File -> Q * Q -> Q -> option N.
Variable renderPage : list event -> nat -> option N.
Variable compressImage : list event -> File -> option N.



End PdfByPages.




(** ** The row builder *)

Lemma num_le_spec a b : num_le a b = true <-> (a <= b)%Q.
Proof. apply Qle_bool_iff. Qed.

Lemma num_gt_spec a b : num_gt a b = true <-> (b < a)%Q.
Proof.
  unfold num_gt. rewrite negb_true_iff. split.
  - intros H. apply Qnot_le_lt. intros Hle.
    apply Qle_bool_iff in Hle. congruence.
  - intros H. destruct (Qle_bool a b) eqn:E; [|easy].
    apply Qle_bool_iff in E. lra.
Qed.

Lemma num_le_false a b : (b < a)%Q -> num_le a b = false.
Proof.
  intros H. destruct (num_le a b) eqn:E; [|easy].
  apply num_le_spec in E. lra.
Qed.

Lemma num_gt_false a b : (a <= b)%Q -> num_gt a b = false.
Proof.
  intros H. destruct (num_gt a b) eqn:E; [|easy].
  apply num_gt_spec in E. lra.
Qed.

(** C7: of two glyphs more than the row tolerance apart, the one lower
    on the page comes out first, and the two rows are joined by a
    backslash and the letter n, not by a line break. ([transform5] grows
    upwards; the page height cancels out of every comparison.) The
    glyphs and the page height are taken on whole coordinates, where the
    arithmetic of the program is exact. *)
Theorem rows_come_out_bottom_up (upper lower : TextItem)
    (pageView : Q * Q * Q * Q) :
  on_grid upper = true -> on_grid lower = true ->
  whole (snd pageView) = true ->
  (transform5 lower + 3 < transform5 upper)%Q ->
  EnhancedExtractor.processTextContent [upper; lower] pageView
  = str lower ++ [92; 110] ++ str upper
  /\ EnhancedExtractor.processTextContent [lower; upper] pageView
     = str lower ++ [92; 110] ++ str upper.
Proof.
  intros _ _ _ Hy.
  assert (Hrows : forall items, items = [upper; lower] \/ items = [lower; upper] ->
    EnhancedExtractor.organizeIntoRows items pageView = [[lower]; [upper]]).
  { intros items Hitems. unfold EnhancedExtractor.organizeIntoRows.
    set (H := snd pageView).
    assert (Hsort : sort (fun a b => (H - transform5 b) - (H - transform5 a))%Q
                      items = [lower; upper]).
    { destruct Hitems as [-> | ->]; cbn.
      - rewrite num_le_false by lra. reflexivity.
      - rewrite (proj2 (num_le_spec _ _)) by lra. reflexivity. }
    rewrite Hsort. cbn.
    unfold EnhancedExtractor.placeItem. cbn.
    rewrite num_le_false; [reflexivity|].
    unfold EnhancedExtractor.rowTolerance.
    apply Qlt_le_trans
      with (H - transform5 lower - (H - transform5 upper))%Q;
      [lra | apply Qle_Qabs]. }
  assert (Hrow : forall it, EnhancedExtractor.rowToText [it] = str it).
  { intros it. unfold EnhancedExtractor.rowToText. cbn.
    rewrite num_gt_false by lra. reflexivity. }
  unfold EnhancedExtractor.processTextContent.
  rewrite !Hrows by auto. cbn [List.map join].
  rewrite !Hrow. auto.
Qed.

Lemma rows_come_out_bottom_up_witness :
  EnhancedExtractor.processTextContent [GLYPH_FECHA; GLYPH_SALDO] PAGE_VIEW
  = lit "Saldo" ++ [92; 110] ++ lit "Fecha"
  /\ EnhancedExtractor.processTextContent [GLYPH_SALDO; GLYPH_FECHA] PAGE_VIEW
     = lit "Saldo" ++ [92; 110] ++ lit "Fecha".
Proof.
  apply (rows_come_out_bottom_up GLYPH_FECHA GLYPH_SALDO PAGE_VIEW);
    vm_compute; reflexivity.
Defined.

(** ** Empty glyphs *)

Lemma addItem_without_text st item :
  has_text item = false -> PdfExtractor.addItem st item = st.
Proof.
  unfold has_text, PdfExtractor.addItem. cbn zeta.
  intros H%negb_false_iff. now rewrite H.
Qed.

Lemma addItems_with_text items : forall st,
  fold_left PdfExtractor.addItem items st
  = fold_left PdfExtractor.addItem (List.filter has_text items) st.
Proof.
  induction items as [|item items IH]; intros st; [reflexivity|].
  cbn [fold_left List.filter]. destruct (has_text item) eqn:E.
  - cbn [fold_left]. apply IH.
  - rewrite addItem_without_text by exact E. apply IH.
Qed.

(** C8, amended: an empty glyph list gives the empty string, and the
    loop of the PDF extractor passes over a glyph whose text is empty
    once control characters are removed and white space is trimmed: from
    any state of the loop -- the text so far, the line being built and
    the last height -- it ends in the state it reaches on the other
    glyphs alone, in the order the sort left them. The page text is the
    same with or without such glyphs as long as the sort puts the others
    in the same order, which its comparator does not ensure. The row
    builder of the enhanced extractor has no such test. *)
Theorem empty_item_skipped_by_line_builder
    (sortItems : list TextItem -> list TextItem) (items : list TextItem)
    (st : PdfExtractor.lines) (pageView : Q * Q * Q * Q) :
  fold_left PdfExtractor.addItem (sortItems items) st
  = fold_left PdfExtractor.addItem
      (List.filter has_text (sortItems items)) st
  /\ PdfExtractor.pageText sortItems items
     = PdfExtractor.pageLines (List.filter has_text (sortItems items))
  /\ (sortItems (List.filter has_text items)
      = List.filter has_text (sortItems items) ->
      PdfExtractor.pageText sortItems items
      = PdfExtractor.pageText sortItems (List.filter has_text items))
  /\ EnhancedExtractor.processTextContent [] pageView = [].
Proof.
  assert (H : PdfExtractor.pageText sortItems items
              = PdfExtractor.pageLines
                  (List.filter has_text (sortItems items))).
  { unfold PdfExtractor.pageText, PdfExtractor.pageLines.
    now rewrite addItems_with_text. }
  split; [apply addItems_with_text|]. split; [exact H|].
  split; [|reflexivity].
  intros Hsort. rewrite H. unfold PdfExtractor.pageText.
  now rewrite Hsort.
Qed.

Lemma empty_item_skipped_by_line_builder_witness :
  PdfExtractor.pageText PdfExtractor.insertionSort
    [GLYPH_A; GLYPH_BLANK; GLYPH_B]
  = PdfExtractor.pageText PdfExtractor.insertionSort
      (List.filter has_text [GLYPH_A; GLYPH_BLANK; GLYPH_B]).
Proof.
  apply (empty_item_skipped_by_line_builder PdfExtractor.insertionSort
           [GLYPH_A; GLYPH_BLANK; GLYPH_B]
           (PdfExtractor.Lines [] [] None) PAGE_VIEW).
  vm_compute. reflexivity.
Defined.

(** The blank glyph is passed over by the loop but not by the sort: next
    to it the other two are less than five points from a neighbour and
    are sorted by x, without it they are eight points apart and sorted by
    height. Under an insertion sort the two lines change places. *)
Lemma blank_glyph_reorders_lines :
  PdfExtractor.pageText PdfExtractor.insertionSort
    [GLYPH_LOW; GLYPH_MID; GLYPH_HIGH] = lit "A" ++ [10] ++ lit "C" ++ [10]
  /\ PdfExtractor.pageText PdfExtractor.insertionSort
       [GLYPH_LOW; GLYPH_HIGH] = lit "C" ++ [10] ++ lit "A" ++ [10]
  /\ PdfExtractor.compareItems GLYPH_LOW GLYPH_MID == -1
  /\ PdfExtractor.compareItems GLYPH_MID GLYPH_HIGH == -1
  /\ PdfExtractor.compareItems GLYPH_LOW GLYPH_HIGH == 8.
Proof. repeat split; vm_compute; reflexivity. Qed.

(** C8, as claimed, fails for the row builder: a glyph with no text and
    no width moves the end of the previous glyph, so eleven spaces come
    out where ten do without it; and alone on its line it makes a row. *)
Lemma empty_glyph_changes_rows :
  EnhancedExtractor.processTextContent [GLYPH_A; GLYPH_EMPTY; GLYPH_B]
    PAGE_VIEW = lit "A" ++ repeat 32 11 ++ lit "B"
  /\ EnhancedExtractor.processTextContent [GLYPH_A; GLYPH_B] PAGE_VIEW
     = lit "A" ++ repeat 32 10 ++ lit "B"
  /\ EnhancedExtractor.organizeIntoRows
       [GLYPH_A; Item [] 10 500 (Some 0%Q)] PAGE_VIEW
     = [[Item [] 10 500 (Some 0%Q)]; [GLYPH_A]].
Proof. repeat split; vm_compute; reflexivity. Qed.


(** ** More on the character normaliser *)

Lemma obj_get_app a b k :
  obj_get (a ++ b) k
  = match obj_get b k with Some v => Some v | None => obj_get a k end.
Proof.
  induction a as [|[k' v] a IH]; cbn.
  - now destruct (obj_get b k).
  - rewrite IH. destruct (obj_get b k); [reflexivity|].
    reflexivity.
Qed.

Lemma obj_get_None entries k :
  forallb (fun e => negb (fst e =? k)) entries = true ->
  obj_get entries k = None.
Proof.
  induction entries as [|[k' v] entries IH]; cbn; [easy|].
  intros [H1 H2]%andb_true_iff. rewrite IH by exact H2.
  apply negb_true_iff in H1. now rewrite H1.
Qed.

(** The punctuation entries map each key to itself, and none of their keys
    is a key of the shared entries. *)
Lemma punctuation_is_identity k v :
  obj_get punctuationEntries k = Some v ->
  v = [k] /\ obj_get commonCharMap k = None.
Proof.
  intros H. apply obj_get_In in H.
  repeat (destruct H as [H|H];
          [injection H as <- <-; split; reflexivity|]).
  destruct H.
Qed.

(** X1: the two copies of [normalizeBankText] agree on every text: the
    punctuation entries that only the PDF extractor's map has change
    nothing. *)
Theorem normalizeBankText_copies_agree (text : jsstring) :
  PdfExtractor.normalizeBankText text
  = SimpleTextExtract.normalizeBankText text.
Proof.
  unfold PdfExtractor.normalizeBankText, SimpleTextExtract.normalizeBankText.
  destruct text as [|c text]; [reflexivity|]. f_equal.
  unfold substitute. apply flat_map_ext. intros k.
  unfold PdfExtractor.bankCharMap, SimpleTextExtract.bankCharMap.
  rewrite obj_get_app.
  destruct (obj_get punctuationEntries k) as [v|] eqn:E; [|reflexivity].
  apply punctuation_is_identity in E as [-> ->]. reflexivity.
Qed.

Lemma substitute_char m k :
  substitute m [k]
  = match obj_get m k with
    | Some v => if truthy v then v else [k]
    | None => [k]
    end.
Proof. unfold substitute. cbn. now rewrite app_nil_r. Qed.

Lemma all_values_spec Q m k v :
  all_values Q m = true -> obj_get m k = Some v -> Q v = true.
Proof.
  unfold all_values. rewrite forallb_forall. intros Hm E.
  specialize (Hm _ (obj_get_In _ _ _ E)). cbn [fst] in Hm.
  now rewrite E in Hm.
Qed.

Lemma substitute_values (Q : jsstring -> bool) m text c :
  all_values Q m = true ->
  In c (substitute m text) ->
  In c text \/ exists v, Q v = true /\ In c v.
Proof.
  intros Hm (k & Hk & Hc)%in_flat_map.
  destruct (obj_get m k) as [v|] eqn:E.
  - destruct (truthy v).
    + right. exists v. split; [|exact Hc]. eapply all_values_spec; eauto.
    + destruct Hc as [<-|[]]. now left.
  - destruct Hc as [<-|[]]. now left.
Qed.

(** X2: the map is written with the keys 249, 248 and 247 (u-grave,
    o-slash and the division sign) twice; the later entries decide, so
    the character loop turns them into r, p and q and never produces a
    7, 8 or 9 that was not in its input. *)
Theorem shadowed_entries_never_yield_digits (text : jsstring) (c : N) :
  in_range 55 57 c = true ->
  (rewrites PdfExtractor.bankCharMap 249 114
   /\ rewrites PdfExtractor.bankCharMap 248 112
   /\ rewrites PdfExtractor.bankCharMap 247 113)
  /\ (In c (substitute PdfExtractor.bankCharMap text) -> In c text)
  /\ (In c (substitute SimpleTextExtract.bankCharMap text) -> In c text).
Proof.
  intros Hc.
  assert (Hr : forall m k v, obj_get m k = Some [v] -> rewrites m k v).
  { intros m k v H pre post. rewrite substitute_app. f_equal.
    change (k :: post) with ([k] ++ post).
    rewrite substitute_app, substitute_char, H. reflexivity. }
  assert (Hv : forall m,
    all_values (forallb (fun d => negb (in_range 55 57 d))) m = true ->
    In c (substitute m text) -> In c text).
  { intros m Hm Hin.
    destruct (substitute_values _ m text c Hm Hin) as [H|(v & Hq & Hcv)];
      [exact H|].
    rewrite forallb_forall in Hq. specialize (Hq c Hcv).
    now rewrite Hc in Hq. }
  split; [repeat split; apply Hr; reflexivity|].
  split; apply Hv; reflexivity.
Qed.

Lemma shadowed_entries_never_yield_digits_witness :
  (rewrites PdfExtractor.bankCharMap 249 114
   /\ rewrites PdfExtractor.bankCharMap 248 112
   /\ rewrites PdfExtractor.bankCharMap 247 113)
  /\ (In 57 (substitute PdfExtractor.bankCharMap [249; 57]) ->
      In 57 [249; 57])
  /\ (In 57 (substitute SimpleTextExtract.bankCharMap [249; 57]) ->
      In 57 [249; 57]).
Proof.
  apply (shadowed_entries_never_yield_digits [249; 57] 57). reflexivity.
Defined.

(** X3: the character loop replaces one code unit by one code unit: in
    both copies the text keeps its length. *)
Theorem character_loop_keeps_length (text : jsstring) :
  length (substitute PdfExtractor.bankCharMap text) = length text
  /\ length (substitute SimpleTextExtract.bankCharMap text) = length text.
Proof.
  assert (H : forall m,
    all_values (fun v => Nat.eqb (length v) 1) m = true ->
    length (substitute m text) = length text).
  { intros m Hm. unfold substitute.
    induction text as [|k text IH]; [reflexivity|]. cbn [flat_map].
    rewrite length_app, IH.
    change (length (k :: text)) with (1 + length text)%nat. f_equal.
    destruct (obj_get m k) as [v|] eqn:E; [|reflexivity].
    destruct (truthy v); [|reflexivity].
    apply Nat.eqb_eq. eapply (all_values_spec _ m k v Hm E). }
  split; apply H; reflexivity.
Qed.

(** ** More on the OCR API client *)

Lemma attempt_without_payload api imageBase64 h :
  has_payload imageBase64 = false ->
  OcrApi.attempt api imageBase64 h = (h, inl OcrApi.InvalidImage).
Proof.
  unfold has_payload, OcrApi.attempt.
  destruct (nth_error _ 1) as [d|]; [|reflexivity]. now intros ->.
Qed.

(** X4: a data URL without a payload is never sent, but it is still
    ``retried'': the client waits one second twice and then reports the
    invalid image. *)
Theorem invalid_image_waits_without_sending api imageBase64 h :
  has_payload imageBase64 = false ->
  OcrApi.extractTextFromImage api imageBase64 0 h
  = (h ++ [OcrApi.Sleep 1000; OcrApi.Sleep 1000], inl OcrApi.InvalidImage).
Proof.
  intros H. rewrite extractTextFromImage_spec. cbn [Nat.sub spec_retry].
  rewrite !attempt_without_payload by exact H.
  now rewrite <- app_assoc.
Qed.

Lemma invalid_image_waits_without_sending_witness :
  OcrApi.extractTextFromImage always_fails (lit "image/png;base64") 0 []
  = ([OcrApi.Sleep 1000; OcrApi.Sleep 1000], inl OcrApi.InvalidImage).
Proof.
  apply (invalid_image_waits_without_sending always_fails
           (lit "image/png;base64") []).
  reflexivity.
Defined.

Lemma attempt_fetches api imageBase64 h d :
  nth_error (split 44 imageBase64) 1 = Some d ->
  exists new, fst (OcrApi.attempt api imageBase64 h) = h ++ new
              /\ Forall (fun e => is_fetch e = true -> e = OcrApi.Fetch d)
                        new.
Proof.
  intros Hd. unfold OcrApi.attempt. rewrite Hd.
  destruct (truthy d);
    [|exists []; rewrite app_nil_r; split; [reflexivity|constructor]].
  exists [OcrApi.Fetch d]. split; [|repeat constructor].
  destruct (api h d) as [m|[] st [b|]]; try reflexivity.
  destruct (IsErroredOnProcessing b); [reflexivity|].
  destruct (ParsedResults b) as [[|t l]|]; reflexivity.
Qed.

Lemma spec_retry_fetches api imageBase64 d retries : forall h,
  nth_error (split 44 imageBase64) 1 = Some d ->
  exists new, fst (spec_retry api retries imageBase64 h) = h ++ new
              /\ Forall (fun e => is_fetch e = true -> e = OcrApi.Fetch d)
                        new.
Proof.
  induction retries as [|retries IH]; intros h Hd; cbn [spec_retry];
    destruct (attempt_fetches api imageBase64 h d Hd) as (new & Hh & Hf);
    destruct (OcrApi.attempt api imageBase64 h) as [h' [err|text]];
    cbn [fst] in *; subst h'; try (now exists new).
  destruct (IH ((h ++ new) ++ [OcrApi.Sleep 1000]) Hd) as (new' & Hh' & Hf').
  exists (new ++ [OcrApi.Sleep 1000] ++ new').
  rewrite Hh', <- !app_assoc. split; [reflexivity|].
  apply Forall_app_2; [exact Hf|]. constructor; [discriminate | exact Hf'].
Qed.

(** X5: every request the retry loop makes for one image carries the
    same payload, the text between the first and the second comma of the
    data URL. *)
Theorem retries_send_the_same_payload api imageBase64 h d :
  nth_error (split 44 imageBase64) 1 = Some d ->
  exists new,
    fst (OcrApi.extractTextFromImage api imageBase64 0 h) = h ++ new
    /\ Forall (fun e => is_fetch e = true -> e = OcrApi.Fetch d) new.
Proof.
  intros Hd. rewrite extractTextFromImage_spec.
  now apply spec_retry_fetches.
Qed.

Lemma retries_send_the_same_payload_witness :
  exists new,
    fst (OcrApi.extractTextFromImage always_fails
           (lit "data:image/png;base64,iVBOR") 0 []) = [] ++ new
    /\ Forall (fun e => is_fetch e = true -> e = OcrApi.Fetch (lit "iVBOR"))
              new.
Proof.
  apply (retries_send_the_same_payload always_fails
           (lit "data:image/png;base64,iVBOR") [] (lit "iVBOR")).
  reflexivity.
Defined.

Lemma forPages_fetches api render pages : forall text h,
  exists new,
    fst (OcrApi.forPages api render pages text h) = h ++ new
    /\ (length (List.filter is_fetch new) <= 3 * length pages)%nat.
Proof.
  induction pages as [|i pages IH]; intros text h; cbn [OcrApi.forPages].
  - exists []. rewrite app_nil_r. split; [reflexivity | cbn; lia].
  - destruct (render h i) as [e|imageBase64].
    { exists [OcrApi.Render i]. split; [reflexivity | cbn; lia]. }
    rewrite extractTextFromImage_spec. cbn [Nat.sub].
    destruct (spec_retry_trace api imageBase64 2 (h ++ [OcrApi.Render i]))
      as (new & Hh & Hf & _).
    destruct (spec_retry api 2 imageBase64 (h ++ [OcrApi.Render i]))
      as [h2 [e|extractedText]]; cbn [fst] in Hh; subst h2.
    { exists (OcrApi.Render i :: new). rewrite <- app_assoc.
      split; [reflexivity|]. cbn [List.filter is_fetch length]. lia. }
    match goal with |- context [OcrApi.forPages _ _ pages ?t ?h'] =>
      destruct (IH t h') as (new' & Hh' & Hf') end.
    exists (OcrApi.Render i :: new ++ new').
    rewrite Hh', <- !app_assoc. split; [reflexivity|].
    cbn [List.filter is_fetch]. rewrite List.filter_app, length_app.
    cbn [length]. lia.
Qed.

(** X6: a document costs the API client at most twelve requests: three
    for each of at most four pages. *)
Theorem document_costs_at_most_twelve_requests
    api pdfPageToImage numPages h :
  exists new,
    fst (OcrApi.extractTextWithOCR api pdfPageToImage numPages h) = h ++ new
    /\ (length (List.filter is_fetch new) <= 3 * Nat.min numPages 4)%nat
    /\ (length (List.filter is_fetch new) <= 12)%nat.
Proof.
  unfold OcrApi.extractTextWithOCR.
  destruct (forPages_fetches api pdfPageToImage
              (List.seq 1 (Nat.min numPages 4)) [] h) as (new & Hh & Hf).
  rewrite length_seq in Hf. exists new. repeat split; auto; lia.
Qed.

(** ** More on the OCR service *)

Section PageLists.

Variable toUpperCase : jsstring -> jsstring.
Variable api : list event -> File -> response.
Variable decode : list event -> File -> option (Q * Q).
Variable toBlob : list event -> File -> Q * Q -> Q -> option N.
Variable renderPage : list event -> nat -> option N.
Variable compressImage : list event -> File -> option N.

Lemma imagePage_pages i image t h :
  List.map pageNumber
    (allPageTexts (snd (imagePage toUpperCase api decode toBlob i image t h)))
  = List.map pageNumber (allPageTexts t) ++ [i].
Proof.
  unfold imagePage.
  destruct (if nearLimit image then _ else _) as [h1 f1].
  destruct (processIndividualFile _ _ _ _ f1 h1) as [h2 [e|r]];
    [|destruct (truthy (trim (raw r)))];
    cbn; now rewrite map_app.
Qed.

Lemma imageLoop_pages files : forall i t h,
  List.map pageNumber
    (allPageTexts (snd (imageLoop toUpperCase api decode toBlob i files t h)))
  = List.map pageNumber (allPageTexts t) ++ List.seq (S i) (length files).
Proof.
  induction files as [|image files IH]; intros i t h; cbn [imageLoop].
  - cbn. now rewrite app_nil_r.
  - pose proof (imagePage_pages (i + 1) image t h) as H1.
    destruct (imagePage _ _ _ _ (i + 1)%nat image t h) as [h' t'].
    cbn [snd] in H1. rewrite IH, H1, <- app_assoc.
    replace (i + 1)%nat with (S i) by lia. reflexivity.
Qed.

Lemma pdfPage_pages i t h :
  let t' := snd (pdfPage toUpperCase api decode toBlob renderPage
                   compressImage i t h) in
  (allPageTexts t' = allPageTexts t /\ allText t' = allText t)
  \/ exists pageText,
       allPageTexts t' = allPageTexts t ++ [Page i pageText]
       /\ allText t' = allText t ++ pageHeader i ++ pageText.
Proof.
  cbn zeta. unfold pdfPage.
  destruct (renderPage h i) as [blobSize|]; [|now left].
  destruct (if _ <? _ then _ else _) as [h2 [e|f]]; [now left|].
  destruct (processIndividualFile _ _ _ _ f h2) as [h3 [e|r]]; [now left|].
  right. now exists (raw r).
Qed.

Lemma pdfLoop_pages pageNums : forall t h,
  let t' := snd (pdfLoop toUpperCase api decode toBlob renderPage
                   compressImage pageNums t h) in
  exists added,
    allPageTexts t' = allPageTexts t ++ added
    /\ sublist (List.map pageNumber added) pageNums
    /\ allText t' = allText t ++ flat_map page_text added.
Proof.
  induction pageNums as [|i pageNums IH]; intros t h; cbn [pdfLoop].
  - exists []. cbn. now rewrite !app_nil_r.
  - pose proof (pdfPage_pages i t h) as H1. cbn zeta in H1.
    destruct (pdfPage _ _ _ _ _ _ i t h) as [h' t']. cbn [snd] in H1.
    destruct (IH t' h') as (added & Ha & Hs & Ht). cbn zeta in Ha, Ht.
    destruct H1 as [[E1 E2]|(pageText & E1 & E2)].
    + exists added. cbn zeta. rewrite Ha, Ht, E1, E2.
      repeat split. now apply sublist_cons.
    + exists (Page i pageText :: added). cbn zeta.
      rewrite Ha, Ht, E1, E2, <- !app_assoc. repeat split.
      * cbn. now apply sublist_skip.
      * cbn [flat_map]. unfold page_text at 2. cbn [pageNumber text].
        now rewrite <- !app_assoc.
Qed.

End PageLists.

(** X7: [processImagePages] never fails and accounts for every image:
    its page list has one entry for each image, numbered 1, 2, ... in
    order, whether the OCR of the image succeeded or not. *)
Theorem processImagePages_lists_every_image
    toUpperCase api decode toBlob (imageFiles : list File) h :
  exists r,
    snd (processImagePages toUpperCase api decode toBlob imageFiles h)
    = inr r
    /\ List.map pageNumber (pages r) = List.seq 1 (length imageFiles)
    /\ processedByPages r = true.
Proof.
  unfold processImagePages.
  pose proof (imageLoop_pages toUpperCase api decode toBlob imageFiles
                0 noTotals h) as H.
  destruct (imageLoop _ _ _ _ 0 imageFiles noTotals h) as [h' t].
  cbn [snd] in *. eexists. split; [reflexivity|]. cbn. now rewrite H.
Qed.

(** X8: [processPdfByPages] fails only when the document cannot be
    opened, and then with the error of the opening and before any page is
    drawn or sent. Once the document is open, a page whose rendering,
    compression or OCR fails is dropped and the loop goes on: the page
    numbers in the result are a sublist of 1 .. numPages, and its text is
    the texts of exactly those pages, each under its page header. *)
Theorem processPdfByPages_lists_successful_pages
    toUpperCase api decode toBlob renderPage compressImage loadDocument h :
  match loadDocument h with
  | inl e =>
    processPdfFile toUpperCase api decode toBlob renderPage compressImage
      loadDocument h = (h, inl e)
  | inr numPages =>
    exists r,
      snd (processPdfFile toUpperCase api decode toBlob renderPage
             compressImage loadDocument h) = inr r
      /\ sublist (List.map pageNumber (pages r)) (List.seq 1 numPages)
      /\ raw r = flat_map page_text (pages r)
  end.
Proof.
  unfold processPdfFile.
  destruct (loadDocument h) as [e|numPages]; [reflexivity|].
  unfold processPdfByPages.
  pose proof (pdfLoop_pages toUpperCase api decode toBlob renderPage
                compressImage (List.seq 1 numPages) noTotals h) as H.
  cbn zeta in H.
  destruct (pdfLoop _ _ _ _ _ _ _ noTotals h) as [h' t].
  cbn [snd] in *. destruct H as (added & Ha & Hs & Ht).
  eexists. split; [reflexivity|]. cbn in *. subst. auto.
Qed.


(** ** The CLABE rule is subsumed by the account rule *)

Lemma run_digit_step p d s caps0 :
  is_digit d = true ->
  run false digit (MState p (d :: s) caps0) = [MState (Some d) s caps0].
Proof.
  intros Hd. cbn [digit cls run rest].
  unfold class_matches, class_has. cbn [existsb citem_has xorb].
  now rewrite Hd.
Qed.

(** Every way of stopping inside a run of digits within the bounds is
    among the results of the quantifier. *)
Lemma rep_digits_member ds : forall mn mx fuel p s caps0,
  forallb is_digit ds = true ->
  (mn <= length ds <= mx)%nat -> (length ds < fuel)%nat ->
  In (MState (prev_after p ds) s caps0)
     (rep (run false digit) true fuel mn (Some mx)
          (MState p (ds ++ s) caps0)).
Proof.
  induction ds as [|d ds IH]; intros mn mx fuel p s caps0 Hds Hb Hf;
    (destruct fuel as [|fuel]; [cbn in Hf; lia|]); cbn [rep].
  - cbn [length] in Hb. assert (mn = 0%nat) as -> by lia.
    destruct (is_zero (Some mx)); [now left|].
    cbn [Nat.eqb negb]. apply in_app_iff. right. now left.
  - cbn [forallb] in Hds. apply andb_true_iff in Hds as [Hd Hds].
    cbn [length] in Hb, Hf.
    destruct mx as [|mx]; [lia|]. cbn [is_zero].
    cbn [app]. rewrite run_digit_step by exact Hd. cbn [flat_map rest].
    rewrite app_nil_r.
    replace (Nat.eqb (length (ds ++ s)) (length (d :: ds ++ s))) with false
      by (symmetry; apply Nat.eqb_neq; cbn [length]; lia).
    rewrite andb_false_r. rewrite prev_after_cons.
    assert (Hin : In (MState (prev_after (Some d) ds) s caps0)
              (rep (run false digit) true fuel (Nat.pred mn)
                   (Nat.pred <$> Some (S mx)) (MState (Some d) (ds ++ s) caps0))).
    { cbn [fmap option_fmap option_map Nat.pred]. apply IH; auto; lia. }
    destruct (negb (Nat.eqb mn 0)); [exact Hin|].
    apply in_app_iff. now left.
Qed.

(** What a match of [\b\d{mn,mx}\b] consumes is a run of digits. *)
Lemma digits_rule_match mn mx x y :
  (mn <= mx)%nat ->
  In y (run false (digit_rule digit mn mx) x) ->
  at_boundary x = true /\ at_boundary y = true /\
  exists w, leads x w y /\ forallb is_digit w = true
            /\ (mn <= length w <= mx)%nat.
Proof.
  intros Hle Hy.
  destruct (digit_rule_match digit mn mx x y one_digit_digit Hle Hy)
    as (Bx & By & w & Hw & Hc).
  repeat split; auto. exists w. split; [exact Hw|].
  unfold digit_rule, between in Hy. cbn [seq foldr] in Hy.
  apply run_Seq in Hy as (z0 & Hz0 & Hy).
  apply run_Seq in Hy as (z & Hz & Hy).
  cbn [run] in Hz0. destruct (at_boundary x); [|easy].
  destruct Hz0 as [<-|[]].
  apply run_Seq in Hy as (z' & Hz' & Hy).
  cbn [run] in Hz', Hy. destruct (at_boundary z); [|easy].
  destruct Hz' as [<-|[]]. destruct Hy as [<-|[]].
  cbn [run] in Hz.
  destruct (rep_inv (run false digit)
              (fun k s => exists v, rest x = v ++ rest s
                                    /\ forallb is_digit v = true
                                    /\ length v = k)
              true (S (mn + length (rest x))))
    with (mn := mn) (mx := Some mx) (k := 0%nat) (x := x) (y := z)
    as (j & Hj1 & Hj2 & v & Hv & Hd & Hl).
  - intros k a b (v & Hv & Hd & Hl) Hb.
    apply run_Class_inv in Hb as (c & s & Hc' & Hs & Hm).
    exists (v ++ [c]). rewrite Hv, Hc', <- Hs, <- app_assoc.
    split; [reflexivity|]. rewrite forallb_app, Hd, length_app.
    cbn in Hm. rewrite orb_false_r in Hm. cbn. rewrite Hm.
    split; [reflexivity | lia].
  - intros M [= <-]. exact Hle.
  - now exists [].
  - exact Hz.
  - destruct Hw as [Hw _]. rewrite Hw in Hv.
    apply app_inv_tail in Hv as <-. specialize (Hj2 _ eq_refl).
    split; [exact Hd | cbn in Hl; lia].
Qed.

Lemma digit_rule_complete mn mx p w s :
  (mn <= length w <= mx)%nat -> forallb is_digit w = true ->
  at_boundary (MState p (w ++ s) ∅) = true ->
  at_boundary (MState (prev_after p w) s ∅) = true ->
  run false (digit_rule digit mn mx) (MState p (w ++ s) ∅) <> [].
Proof.
  intros Hb Hw Bx By Hnil.
  assert (Hin : In (MState (prev_after p w) s ∅)
                   (run false (digit_rule digit mn mx)
                        (MState p (w ++ s) ∅))).
  { unfold digit_rule, between. cbn [seq foldr].
    apply run_Seq. exists (MState p (w ++ s) ∅). split.
    { cbn [run]. rewrite Bx. now left. }
    apply run_Seq. exists (MState (prev_after p w) s ∅). split.
    { cbn [run rest]. apply rep_digits_member; auto.
      rewrite length_app. lia. }
    apply run_Seq. exists (MState (prev_after p w) s ∅). split.
    { cbn [run]. rewrite By. now left. }
    cbn [run]. now left. }
  rewrite Hnil in Hin. destruct Hin.
Qed.

(** X17: wherever the CLABE pattern matches, the account pattern
    matches at the same position. *)
Theorem clabe_match_is_account_match (p : option N) (s : jsstring) :
  matches_at clabeRegex p s = true ->
  matches_at accountNumberRegex p s = true.
Proof.
  unfold matches_at. intros H.
  destruct (exec false clabeRegex p s) as [y|] eqn:E; [|easy].
  apply exec_run in E. rewrite clabe_is_digit_rule in E.
  apply digits_rule_match in E as (Bx & By & w & [Hw Hp] & Hd & Hl); [|lia].
  cbn [rest prev] in Hw, Hp.
  assert (Hne : run false accountNumberRegex (MState p s ∅) <> []).
  { rewrite account_is_digit_rule, Hw.
    apply digit_rule_complete; auto; [lia | now rewrite <- Hw |].
    unfold at_boundary, word_before, word_after in *.
    cbn [prev rest]. now rewrite <- Hp. }
  unfold exec.
  destruct (run false accountNumberRegex (MState p s ∅)); [easy|].
  reflexivity.
Qed.

Lemma clabe_match_is_account_match_witness :
  matches_at accountNumberRegex (Some 32)
    (CLABE_EXAMPLE ++ lit " a nombre de") = true.
Proof.
  apply (clabe_match_is_account_match (Some 32)
           (CLABE_EXAMPLE ++ lit " a nombre de")).
  vm_compute. reflexivity.
Defined.

(** ** The CLABE rule after the account rule *)

Lemma scan_quiet r tmpl : forall s p,
  quiet r p s -> scan false r tmpl 0 p s = s.
Proof.
  induction s as [|c s IH]; intros p H; cbn [scan].
  - now rewrite exec_none by (apply (H [] []); reflexivity).
  - rewrite exec_none by (apply (H [] (c :: s)); reflexivity).
    f_equal. apply IH. intros pre s' ->.
    rewrite <- prev_after_cons with (p := p). now apply (H (c :: pre)).
Qed.

Lemma scan_skip ic r tmpl m : forall q t,
  scan ic r tmpl (length m) q (m ++ t)
  = scan ic r tmpl 0 (prev_after q m) t.
Proof.
  induction m as [|c m IH]; intros q t; [reflexivity|].
  cbn [length app scan]. now rewrite IH, prev_after_cons.
Qed.

(** After a match that took [m], the scan writes the replacement and
    goes on behind [m]. *)
Lemma scan_match ic r tmpl p s y m :
  exec ic r p s = Some y -> s = m ++ rest y -> m <> [] ->
  scan ic r tmpl 0 p s
  = expand tmpl y ++ scan ic r tmpl 0 (prev_after p m) (rest y).
Proof.
  intros E Hs Hm. destruct m as [|c m]; [easy|]. subst s.
  cbn [app] in *. cbn [scan]. rewrite E.
  replace (length (c :: m ++ rest y) - length (rest y))%nat
    with (S (length m)) by (cbn [length]; rewrite length_app; lia).
  now rewrite scan_skip, prev_after_cons.
Qed.

Lemma at_boundary_head q t t' caps1 caps2 :
  head t = head t' ->
  at_boundary (MState q t caps1) = at_boundary (MState q t' caps2).
Proof.
  intros H. unfold at_boundary, word_before, word_after. cbn [prev rest].
  destruct t, t'; cbn in H; try discriminate; [reflexivity|].
  now injection H as ->.
Qed.

Lemma prev_after_nonempty q q' l :
  l <> [] -> prev_after q l = prev_after q' l.
Proof.
  intros Hl. unfold prev_after. destruct (last l) eqn:E; [reflexivity|].
  now apply last_None in E.
Qed.

Lemma prev_after_digits q w :
  w <> [] -> forallb is_digit w = true ->
  exists c, prev_after q w = Some c /\ is_digit c = true.
Proof.
  intros Hw Hd. unfold prev_after. destruct (last w) as [c|] eqn:E.
  - exists c. split; [reflexivity|]. rewrite forallb_forall in Hd.
    apply Hd. apply last_Some in E as [l ->]. apply in_app_iff.
    right. now left.
  - now apply last_None in E.
Qed.

(** What a match of a rule [\b\d{mn,mx}\b] is made of. *)
Lemma digits_rule_exec mn mx p s y :
  (1 <= mn <= mx)%nat ->
  exec false (digit_rule digit mn mx) p s = Some y ->
  exists m, s = m ++ rest y /\ m <> [] /\ forallb is_digit m = true
            /\ (mn <= length m <= mx)%nat
            /\ at_boundary (MState p s ∅) = true
            /\ at_boundary (MState (prev_after p m) (rest y) ∅) = true.
Proof.
  intros Hle E. apply exec_run in E.
  apply digits_rule_match in E as (Bx & By & w & [Hw Hp] & Hd & Hl);
    [|lia].
  cbn [rest prev] in Hw, Hp. exists w. repeat split; auto; try lia.
  - intros ->. cbn in Hl. lia.
  - unfold at_boundary, word_before, word_after in *. cbn [prev rest].
    now rewrite <- Hp.
Qed.

(** No such match starts behind a digit, or at a code unit that is not
    a digit. *)
Lemma digits_rule_after_digit mn mx c s :
  (1 <= mn <= mx)%nat -> is_digit c = true ->
  exec false (digit_rule digit mn mx) (Some c) s = None.
Proof.
  intros Hle Hc.
  destruct (exec false (digit_rule digit mn mx) (Some c) s) as [y|] eqn:E;
    [|reflexivity].
  apply digits_rule_exec in E as (m & Hs & Hm & Hd & _ & Bx & _);
    [|exact Hle].
  destruct m as [|d m]; [easy|]. cbn [forallb] in Hd.
  apply andb_true_iff in Hd as [Hd _]. subst s.
  unfold at_boundary, word_before, word_after in Bx. cbn in Bx.
  now rewrite (is_digit_word c Hc), (is_digit_word d Hd) in Bx.
Qed.

Lemma digits_rule_head mn mx p s :
  (1 <= mn <= mx)%nat ->
  match s with c :: _ => is_digit c = false | [] => True end ->
  run false (digit_rule digit mn mx) (MState p s ∅) = [].
Proof.
  intros Hle Hs.
  destruct (run false (digit_rule digit mn mx) (MState p s ∅))
    as [|y l] eqn:E; [reflexivity|]. exfalso.
  assert (Hy : exec false (digit_rule digit mn mx) p s = Some y)
    by (unfold exec; now rewrite E).
  apply digits_rule_exec in Hy as (m & -> & Hm & Hd & _); [|exact Hle].
  destruct m as [|d m]; [easy|]. cbn in Hs, Hd.
  apply andb_true_iff in Hd as [Hd _]. congruence.
Qed.

Section AfterAccountRule.

Let account := digit_rule digit 10 20.
Let clabe := digit_rule digit 18 18.
Let tmpl := [RLit TOKEN_CUENTA].

Lemma token_no_digit :
  forallb (fun c => negb (is_digit c)) TOKEN_CUENTA = true.
Proof. reflexivity. Qed.

(** Behind a digit the account rule copies the next code unit. *)
Lemma account_scan_after_digit c s :
  is_digit c = true ->
  scan false account tmpl 0 (Some c) s
  = match s with
    | [] => []
    | e :: s' => e :: scan false account tmpl 0 (Some e) s'
    end.
Proof.
  intros Hc. destruct s as [|e s']; cbn [scan];
    now rewrite (digits_rule_after_digit 10 20 c) by (auto; lia).
Qed.

(** A digit at the head of what the account rule returns was copied. *)
Lemma account_scan_head_digit p s d out :
  scan false account tmpl 0 p s = d :: out -> is_digit d = true ->
  exec false account p s = None
  /\ exists s', s = d :: s' /\ out = scan false account tmpl 0 (Some d) s'.
Proof.
  intros Hout Hd.
  assert (Htok : forall y l, expand tmpl y ++ l <> d :: out).
  { intros y l H. cbn in H. injection H as <- _. discriminate. }
  destruct s as [|c s']; cbn [scan] in Hout.
  - destruct (exec false account p []);
      [now apply Htok in Hout | discriminate].
  - destruct (exec false account p (c :: s')) as [y|] eqn:E;
      [now apply Htok in Hout|].
    injection Hout as -> <-. split; [reflexivity|]. now exists s'.
Qed.

Lemma account_scan_digits w : forall p s out,
  forallb is_digit w = true ->
  scan false account tmpl 0 p s = w ++ out ->
  exists s', s = w ++ s'
             /\ out = scan false account tmpl 0 (prev_after p w) s'
             /\ (w <> [] -> exec false account p s = None).
Proof.
  induction w as [|d w IH]; intros p s out Hw Hout.
  - exists s. now repeat split.
  - cbn [forallb] in Hw. apply andb_true_iff in Hw as [Hd Hw].
    apply account_scan_head_digit in Hout as (Hnone & s1 & -> & Hout);
      [|exact Hd].
    symmetry in Hout. apply IH in Hout as (s' & -> & Hout & _);
      [|exact Hw].
    exists s'. rewrite prev_after_cons. now repeat split.
Qed.

(** In what the account rule returns the CLABE pattern matches
    nowhere. *)
Lemma account_leaves_clabe_quiet n : forall s p,
  (length s <= n)%nat ->
  quiet clabe p (scan false account tmpl 0 p s).
Proof.
  induction n as [|n IH]; intros s p Hn.
  { destruct s; [|cbn in Hn; lia]. cbn [scan].
    rewrite exec_none by (apply digits_rule_head; [lia | exact I]).
    intros pre s' H. symmetry in H. apply app_eq_nil in H as [-> ->].
    apply digits_rule_head; [lia | exact I]. }
  destruct (exec false account p s) as [y|] eqn:E.
  - (* a match at the head of [s] *)
    pose proof E as Hshape.
    apply digits_rule_exec in Hshape
      as (m & Hs & Hm & Hd & Hlen & Bx & By); [|lia].
    rewrite (scan_match false account tmpl p s y m E Hs Hm).
    replace (expand tmpl y) with TOKEN_CUENTA
      by (unfold expand, tmpl; cbn [flat_map]; now rewrite app_nil_r).
    destruct (prev_after_digits p m Hm Hd) as (c & Hc & Hcd).
    rewrite Hc in *.
    assert (Hrest : match rest y with
                    | e :: _ => is_digit e = false
                    | [] => True
                    end).
    { unfold at_boundary, word_before, word_after in By. cbn in By.
      rewrite (is_digit_word c Hcd) in By.
      destruct (rest y) as [|e t]; [exact I|].
      destruct (is_digit e) eqn:He; [|reflexivity].
      now rewrite (is_digit_word e He) in By. }
    assert (IHy : quiet clabe (Some c)
                    (scan false account tmpl 0 (Some c) (rest y))).
    { apply IH. apply (f_equal length) in Hs. rewrite length_app in Hs.
      destruct m; [easy|]. cbn [length] in *. lia. }
    intros pre s' Hsplit.
    apply app_eq_app in Hsplit as [l [[Hl ->]|[-> Hl]]].
    + (* the position is inside the token, or at its end *)
      destruct l as [|a l].
      * cbn [app]. apply digits_rule_head; [lia|].
        rewrite (account_scan_after_digit c) by exact Hcd.
        destruct (rest y); [exact I | exact Hrest].
      * apply digits_rule_head; [lia|]. cbn [app].
        pose proof token_no_digit as Ht. rewrite Hl, forallb_app in Ht.
        apply andb_true_iff in Ht as [_ Ht]. cbn [forallb] in Ht.
        apply andb_true_iff in Ht as [Ha _]. now apply negb_true_iff.
    + (* the position is behind the token *)
      destruct l as [|a l].
      * cbn [app] in Hl. subst s'.
        apply digits_rule_head; [lia|].
        rewrite (account_scan_after_digit c) by exact Hcd.
        destruct (rest y); [exact I | exact Hrest].
      * rewrite <- prev_after_app.
        rewrite (prev_after_nonempty _ (Some c)) by easy.
        now apply IHy.
  - (* no match at the head of [s] *)
    destruct s as [|c s1].
    { cbn [scan]. rewrite E. intros pre s' H. symmetry in H.
      apply app_eq_nil in H as [-> ->].
      apply digits_rule_head; [lia | exact I]. }
    assert (Hout : scan false account tmpl 0 p (c :: s1)
                   = c :: scan false account tmpl 0 (Some c) s1)
      by (cbn [scan]; now rewrite E).
    intros pre s' Hsplit. destruct pre as [|a pre].
    + (* a CLABE match at the head would be an account match *)
      cbn [app] in Hsplit. subst s'.
      change (prev_after p []) with p.
      destruct (run false clabe
                  (MState p (scan false account tmpl 0 p (c :: s1)) ∅))
        as [|z l] eqn:Ez; [reflexivity|]. exfalso.
      assert (Hz : exec false clabe p
                     (scan false account tmpl 0 p (c :: s1)) = Some z)
        by (unfold exec; now rewrite Ez).
      apply digits_rule_exec in Hz
        as (w & Hw & Hwne & Hwd & Hwl & Bx & By); [|lia].
      apply account_scan_digits in Hw as (s2 & Hs2 & Hz2 & _);
        [|exact Hwd].
      destruct (prev_after_digits p w Hwne Hwd) as (d & Hd & Hdd).
      rewrite Hd in *.
      rewrite (account_scan_after_digit d) in Hz2 by exact Hdd.
      assert (Hne : run false account (MState p (c :: s1) ∅) <> []).
      { rewrite Hs2. apply digit_rule_complete; auto; [lia | |].
        - rewrite <- Hs2. rewrite <- Bx. apply at_boundary_head.
          now rewrite Hout.
        - rewrite Hd, <- By. apply at_boundary_head. rewrite Hz2.
          now destruct s2. }
      apply Hne. unfold exec in E.
      destruct (run false account (MState p (c :: s1) ∅)); [reflexivity|].
      discriminate.
    + rewrite Hout in Hsplit. injection Hsplit as <- Hsplit.
      rewrite prev_after_cons. apply (IH s1 (Some c)); [|exact Hsplit].
      cbn [length] in Hn. lia.
Qed.

End AfterAccountRule.

(** X9: the CLABE rule is dead code. It comes after the account rule,
    and in what the account rule returns the CLABE pattern matches
    nowhere: every run the CLABE rule could label has been given the
    account token, so in both sanitizers the step changes nothing. *)
Theorem clabe_rule_never_fires (text : jsstring) :
  redactClabe (redactAccount text) = redactAccount text
  /\ PdfExtractor.sanitizePersonalData text
     = redactName (redactEmail (redactAccount (redactCard text)))
  /\ SimpleTextExtract.sanitizePersonalData text
     = match text with
       | [] => []
       | _ :: _ => redactEmail (redactAccount (redactCard text))
       end.
Proof.
  assert (H : forall t, redactClabe (redactAccount t) = redactAccount t).
  { intros t. unfold redactClabe, redactAccount, replace_all.
    apply scan_quiet. rewrite clabe_is_digit_rule, account_is_digit_rule.
    now apply (account_leaves_clabe_quiet (length t)). }
  split; [apply H|]. split.
  - unfold PdfExtractor.sanitizePersonalData. cbn zeta. now rewrite H.
  - unfold SimpleTextExtract.sanitizePersonalData.
    destruct text; [reflexivity|]. cbn zeta. now rewrite H.
Qed.


(** ** More on the row builder of the enhanced extractor *)

Lemma insert_sorted_perm {A} (cmp : A -> A -> Q) a l :
  Permutation (insert_sorted cmp a l) (a :: l).
Proof.
  induction l as [|b l IH]; cbn; [reflexivity|].
  destruct (num_le (cmp a b) 0); [reflexivity|].
  rewrite IH. apply perm_swap.
Qed.

Lemma sort_perm {A} (cmp : A -> A -> Q) l : Permutation (sort cmp l) l.
Proof.
  unfold sort. induction l as [|a l IH]; cbn; [reflexivity|].
  now rewrite insert_sorted_perm, IH.
Qed.

Lemma pushIntoRow_rows pageHeight item rows : forall rows',
  EnhancedExtractor.pushIntoRow pageHeight item rows = Some rows' ->
  Forall row_ok rows ->
  Permutation (concat rows') (item :: concat rows)
  /\ Forall row_ok rows'.
Proof.
  induction rows as [|row rows IH]; intros rows' H Hok; [discriminate|].
  cbn [EnhancedExtractor.pushIntoRow] in H.
  apply Forall_cons in Hok as [Hrow Hok].
  assert (Hrec : forall o, cons row <$> o = Some rows' ->
            o = EnhancedExtractor.pushIntoRow pageHeight item rows ->
            Permutation (concat rows') (item :: concat (row :: rows))
            /\ Forall row_ok rows').
  { intros [r|] [= <-] Hr. symmetry in Hr.
    destruct (IH _ Hr Hok) as [Hp Hf]. split.
    - cbn [concat]. rewrite Hp. symmetry. apply Permutation_middle.
    - now constructor. }
  destruct row as [|first row]; [now apply (Hrec _ H)|].
  destruct (num_le _ _) eqn:E; [|now apply (Hrec _ H)].
  injection H as <-. split.
  - cbn [concat].
    transitivity (([item] ++ first :: row) ++ concat rows);
      [apply Permutation_app_tail, (Permutation_app_comm (first :: row) [item])
      | reflexivity].
  - constructor; [easy | exact Hok].
Qed.

Lemma placeItem_rows pageHeight rows item :
  Forall row_ok rows ->
  Permutation (concat (EnhancedExtractor.placeItem pageHeight rows item))
              (item :: concat rows)
  /\ Forall row_ok
            (EnhancedExtractor.placeItem pageHeight rows item).
Proof.
  intros Hok. unfold EnhancedExtractor.placeItem.
  destruct (EnhancedExtractor.pushIntoRow pageHeight item rows) as [rows'|]
    eqn:E.
  - now apply (pushIntoRow_rows pageHeight item rows).
  - split.
    + rewrite concat_app. cbn [concat]. rewrite app_nil_r.
      rewrite Permutation_app_comm. reflexivity.
    + apply Forall_app. split; [exact Hok|].
      constructor; [easy | constructor].
Qed.

Lemma placeItems_rows pageHeight items : forall rows,
  Forall row_ok rows ->
  Permutation
    (concat (fold_left (EnhancedExtractor.placeItem pageHeight) items rows))
    (items ++ concat rows)
  /\ Forall row_ok
       (fold_left (EnhancedExtractor.placeItem pageHeight) items rows).
Proof.
  induction items as [|item items IH]; intros rows Hok; [now split|].
  cbn [fold_left].
  destruct (placeItem_rows pageHeight rows item Hok) as [Hp Hf].
  destruct (IH _ Hf) as [Hp' Hf']. split; [|exact Hf'].
  rewrite Hp', Hp. cbn [app]. symmetry. apply Permutation_middle.
Qed.

(** X10: [organizeIntoRows] deals the glyphs out into rows: every glyph
    lands in exactly one row and no row is empty, whatever the
    coordinates are. *)
Theorem organizeIntoRows_partitions_glyphs
    (textItems : list TextItem) (pageView : Q * Q * Q * Q) :
  Permutation (concat (EnhancedExtractor.organizeIntoRows textItems pageView))
              textItems
  /\ Forall row_ok
            (EnhancedExtractor.organizeIntoRows textItems pageView).
Proof.
  unfold EnhancedExtractor.organizeIntoRows. cbn zeta.
  destruct (placeItems_rows (snd pageView)
              (sort (fun a b => (snd pageView - transform5 b)
                                - (snd pageView - transform5 a))%Q textItems)
              [] (List.Forall_nil _)) as [Hp Hf].
  split; [|exact Hf].
  rewrite Hp. cbn [concat]. rewrite app_nil_r. apply sort_perm.
Qed.

Lemma text_length_cons item row :
  text_length (item :: row) = (length (str item) + text_length row)%nat.
Proof. reflexivity. Qed.

Lemma text_length_perm row row' :
  Permutation row row' -> text_length row = text_length row'.
Proof. induction 1; rewrite ?text_length_cons; lia. Qed.

Lemma appendItem_length (acc : jsstring * Q) item :
  (length (A := N) (fst acc) + length (str item)
   <= length (fst (EnhancedExtractor.appendItem acc item))
   <= length (fst acc) + length (str item) + 10)%nat.
Proof.
  destruct acc as [rowText lastEndX].
  unfold EnhancedExtractor.appendItem. cbn [fst].
  destruct (num_gt lastEndX 0); [|rewrite length_app; lia].
  destruct (0 <? round _)%Z eqn:E; [|rewrite length_app; lia].
  rewrite !length_app, repeat_length. lia.
Qed.

Lemma appendItems_length row : forall acc : jsstring * Q,
  (length (A := N) (fst acc) + text_length row
   <= length (fst (fold_left EnhancedExtractor.appendItem row acc))
   <= length (A := N) (fst acc) + text_length row + 10 * length row)%nat.
Proof.
  induction row as [|item row IH]; intros acc.
  - change (text_length []) with 0%nat. cbn [fold_left length]. lia.
  - cbn [fold_left]. specialize (IH (EnhancedExtractor.appendItem acc item)).
    pose proof (appendItem_length acc item).
    rewrite text_length_cons. cbn [length]. lia.
Qed.

(** X11: the text of a row holds the text of all its glyphs and, between
    two glyphs, at most ten spaces; nothing is put before the first
    glyph. *)
Theorem rowToText_pads_at_most_ten (row : list TextItem) :
  (text_length row
   <= length (EnhancedExtractor.rowToText row)
   <= text_length row + 10 * Nat.pred (length row))%nat.
Proof.
  unfold EnhancedExtractor.rowToText. cbn zeta.
  pose proof (sort_perm (fun a b => transform4 a - transform4 b)%Q row) as Hp.
  rewrite (text_length_perm _ _ (Permutation_sym Hp)).
  rewrite <- (Permutation_length Hp).
  destruct (sort _ row) as [|item sorted]; [cbn; lia|].
  cbn [fold_left].
  pose proof (appendItems_length sorted
                (EnhancedExtractor.appendItem ([], 0%Q) item)) as H.
  assert (Hfirst : fst (EnhancedExtractor.appendItem ([], 0%Q) item)
                   = str item) by reflexivity.
  rewrite Hfirst in H. rewrite text_length_cons.
  cbn [length Nat.pred]. lia.
Qed.

(** ** The image compressor of the browser converter *)

Lemma num_gt_not a b : num_gt a b = false -> (a <= b)%Q.
Proof.
  unfold num_gt. rewrite negb_false_iff. apply Qle_bool_iff.
Qed.

(** X12: the canvas that [compressImageInBrowser] draws on fits both
    limits and is in neither direction larger than the picture. *)
Theorem resize_fits_the_limits (maxWidth maxHeight width height : Q) :
  (0 < maxWidth)%Q -> (0 < maxHeight)%Q -> (0 < width)%Q -> (0 < height)%Q ->
  let '(w, h) := BrowserPdfConverter.resize maxWidth maxHeight width height in
  (w <= maxWidth /\ h <= maxHeight /\ w <= width /\ h <= height)%Q.
Proof.
  intros HmW HmH Hw Hh. unfold BrowserPdfConverter.resize.
  assert (Hscale : forall a m x : Q,
            (0 <= a -> 0 < m -> m < x -> a * (m / x) <= a)%Q).
  { intros a m x Ha Hm Hx.
    assert (m / x <= 1)%Q by (apply Qle_shift_div_r; lra).
    rewrite <- (Qmult_1_r a) at 2. rewrite !(Qmult_comm a).
    now apply Qmult_le_compat_r. }
  destruct (num_gt width maxWidth) eqn:E1.
  - apply num_gt_spec in E1.
    pose proof (Hscale height maxWidth width) as Hh1.
    destruct (num_gt (height * (maxWidth / width)) maxHeight) eqn:E2.
    + apply num_gt_spec in E2.
      pose proof (Hscale maxWidth maxHeight
                    (height * (maxWidth / width))%Q) as Hw2.
      repeat split; lra.
    + apply num_gt_not in E2. repeat split; lra.
  - apply num_gt_not in E1.
    destruct (num_gt height maxHeight) eqn:E2.
    + apply num_gt_spec in E2.
      pose proof (Hscale width maxHeight height) as Hw2.
      repeat split; lra.
    + apply num_gt_not in E2. repeat split; lra.
Qed.

Lemma resize_fits_the_limits_witness :
  let '(w, h) := BrowserPdfConverter.resize 1200 1800 2400 4800 in
  (w <= 1200 /\ h <= 1800 /\ w <= 2400 /\ h <= 4800)%Q.
Proof.
  apply (resize_fits_the_limits 1200 1800 2400 4800); reflexivity.
Defined.

Lemma replaceFirst_dotless r s :
  dotless s = true -> BrowserPdfConverter.replaceFirst 46 r s = s.
Proof.
  induction s as [|a s IH]; [reflexivity|]. cbn [dotless forallb].
  intros [Ha Hs]%andb_true_iff. cbn [BrowserPdfConverter.replaceFirst].
  apply negb_true_iff in Ha. rewrite Ha. f_equal. now apply IH.
Qed.

Lemma replaceFirst_first_dot r stem ext :
  dotless stem = true ->
  BrowserPdfConverter.replaceFirst 46 r (stem ++ 46 :: ext)
  = stem ++ r ++ ext.
Proof.
  induction stem as [|a s IH]; cbn [dotless forallb app].
  - intros _. cbn [BrowserPdfConverter.replaceFirst].
    now rewrite N.eqb_refl.
  - intros [Ha Hs]%andb_true_iff. cbn [BrowserPdfConverter.replaceFirst].
    apply negb_true_iff in Ha. rewrite Ha. f_equal. now apply IH.
Qed.

(** X13: the compressed file is always declared a JPEG, whatever the
    input was, and only the first dot of its name is rewritten: the
    [_compressed] mark goes in front of the first dot, not in front of
    the extension, and a name without a dot is kept as it is. *)
Theorem compressed_file_is_renamed_jpeg
    decode toBlob (imageFile : File) o (compressed : File) :
  BrowserPdfConverter.compressImageInBrowser decode toBlob imageFile o
  = inr compressed ->
  type compressed = lit "image/jpeg"
  /\ (dotless (name imageFile) = true -> name compressed = name imageFile)
  /\ (forall stem ext,
        name imageFile = stem ++ 46 :: ext -> dotless stem = true ->
        name compressed = stem ++ lit "_compressed." ++ ext).
Proof.
  unfold BrowserPdfConverter.compressImageInBrowser. cbn zeta.
  destruct (decode imageFile) as [[width height]|]; [|discriminate].
  destruct (toBlob imageFile _ _) as [blobSize|]; [|discriminate].
  intros [= <-]. cbn [type name]. split; [reflexivity|]. split.
  - apply replaceFirst_dotless.
  - intros stem ext -> Hs. now apply replaceFirst_first_dot.
Qed.

Lemma compressed_file_is_renamed_jpeg_witness :
  type (MkFile (lit "estado_compressed.2024.png") (lit "image/jpeg")
               (1536 * 1024)) = lit "image/jpeg"
  /\ (dotless (name STATEMENT_SCAN) = true ->
      name (MkFile (lit "estado_compressed.2024.png") (lit "image/jpeg")
                   (1536 * 1024)) = name STATEMENT_SCAN)
  /\ (forall stem ext,
        name STATEMENT_SCAN = stem ++ 46 :: ext -> dotless stem = true ->
        name (MkFile (lit "estado_compressed.2024.png") (lit "image/jpeg")
                     (1536 * 1024))
        = stem ++ lit "_compressed." ++ ext).
Proof.
  apply (compressed_file_is_renamed_jpeg (a4_image []) (heavy_blob [])
           STATEMENT_SCAN BrowserPdfConverter.noOptions).
  reflexivity.
Defined.

(** ** The line builder of the simple extractor *)

Lemma simple_addItem_blank st item :
  not_blank item = false -> SimpleTextExtract.addItem st item = st.
Proof.
  unfold not_blank, SimpleTextExtract.addItem. cbn zeta.
  intros H%negb_false_iff. now rewrite H.
Qed.

Lemma simple_addItems_not_blank items : forall st,
  fold_left SimpleTextExtract.addItem items st
  = fold_left SimpleTextExtract.addItem (List.filter not_blank items) st.
Proof.
  induction items as [|item items IH]; intros st; [reflexivity|].
  cbn [fold_left List.filter]. destruct (not_blank item) eqn:E.
  - cbn [fold_left]. apply IH.
  - rewrite simple_addItem_blank by exact E. apply IH.
Qed.

(** X14: the loop of the simple extractor passes over a glyph whose text
    is blank. From any state of the loop it ends in the state it reaches
    on the other glyphs alone, in the order the sort left them; so the
    text of a page, and of a document, is that of its glyphs that are
    not blank. *)
Theorem blank_item_skipped_by_simple_builder
    (sortItems : list TextItem -> list TextItem)
    (items : list TextItem) (st : SimpleTextExtract.lines) :
  fold_left SimpleTextExtract.addItem (sortItems items) st
  = fold_left SimpleTextExtract.addItem
      (List.filter not_blank (sortItems items)) st
  /\ SimpleTextExtract.pageLines (sortItems items)
     = SimpleTextExtract.pageLines
         (List.filter not_blank (sortItems items))
  /\ SimpleTextExtract.extractTextFromPDF sortItems [items]
     = SimpleTextExtract.extractTextFromPDF
         (fun l => List.filter not_blank (sortItems l)) [items].
Proof.
  assert (H : SimpleTextExtract.pageLines (sortItems items)
              = SimpleTextExtract.pageLines
                  (List.filter not_blank (sortItems items))).
  { unfold SimpleTextExtract.pageLines.
    now rewrite simple_addItems_not_blank. }
  split; [apply simple_addItems_not_blank|]. split; [exact H|].
  unfold SimpleTextExtract.extractTextFromPDF.
  cbn [SimpleTextExtract.pagesText]. now rewrite H.
Qed.


(** ** What the clean-up rules leave of the line structure *)

Lemma one_lineb_spec s : one_lineb s = true -> one_line s.
Proof. intros H. apply List.Forall_forall. now apply forallb_forall. Qed.

Lemma run_Class_step ic neg items x y :
  In y (run ic (Class neg items) x) ->
  exists c s, rest x = c :: s /\ rest y = s
              /\ class_matches ic neg items c = true.
Proof.
  cbn [run]. destruct (rest x) as [|c s]; [easy|].
  destruct (class_matches ic neg items c) eqn:E; [|easy].
  intros [<-|[]]. now exists c, s.
Qed.

(** A match of [[...]+] takes at least one code unit. *)
Lemma plus_class_consumes ic neg items x y :
  In y (run ic (plus (Class neg items)) x) ->
  (length (rest y) < length (rest x))%nat.
Proof.
  unfold plus. cbn [run]. intros Hy.
  destruct (rep_inv (run ic (Class neg items))
              (fun k z => (length (rest z) + k <= length (rest x))%nat)
              true (S (1 + length (rest x))))
    with (mn := 1%nat) (mx := @None nat) (k := 0%nat) (x := x) (y := y)
    as (j & Hj & _ & Hlen); try easy; try lia.
  intros k a b Ha Hb.
  apply run_Class_step in Hb as (c & s & Hc & Hs & _).
  rewrite Hc in Ha. rewrite Hs. cbn [length] in Ha. lia.
Qed.

(** Where the code unit ahead is in the class, [[...]+] matches. *)
Lemma plus_class_matches ic neg items p c s :
  class_matches ic neg items c = true ->
  exec ic (plus (Class neg items)) p (c :: s) <> None.
Proof.
  intros Hc. unfold exec, plus. cbn [run rest rep is_zero Nat.eqb negb].
  rewrite Hc. cbn [flat_map andb rest length Nat.add rep is_zero Nat.eqb
                   negb Nat.pred fmap option_fmap option_map].
  rewrite app_nil_r.
  destruct (flat_map _ _) as [|z l]; cbn; congruence.
Qed.

Section ClassRules.

Variables (ic neg : bool) (items : list citem) (l : jsstring).

Lemma scan_plus_class : forall s n p,
  Forall (left_by ic neg items l) (scan ic (plus (Class neg items)) [RLit l] n p s).
Proof.
  assert (Hl : Forall (left_by ic neg items l) l).
  { apply List.Forall_forall. intros c Hc. now right. }
  assert (He : forall y, Forall (left_by ic neg items l) (expand [RLit l] y)).
  { intros y. cbn. now rewrite app_nil_r. }
  induction s as [|c s IH]; intros n p.
  - destruct n; cbn [scan]; [|constructor].
    destruct (exec _ _ _ _); [|constructor].
    rewrite app_nil_r. apply He.
  - destruct n as [|n]; cbn [scan]; [|apply IH].
    destruct (exec ic (plus (Class neg items)) p (c :: s)) as [y|] eqn:E.
    + apply Forall_app. split; [apply He|].
      apply exec_run, plus_class_consumes in E. cbn [rest length] in E.
      destruct (length (c :: s) - length (rest y))%nat eqn:D;
        [cbn [length] in D; lia | apply IH].
    + constructor; [|apply IH]. left.
      destruct (class_matches ic neg items c) eqn:Hc; [|reflexivity].
      now apply (plus_class_matches ic neg items p c s) in Hc.
Qed.


End ClassRules.

(** After [/\s+/g -> ' '] the text is on one line. *)
Lemma collapse_one_line s :
  one_line (replace_all false spacesRegex [RLit (lit " ")] s).
Proof.
  unfold replace_all, spacesRegex, space, cls.
  eapply Forall_impl; [apply scan_plus_class|].
  intros c [Hc|Hc]; unfold plain_space.
  - unfold class_matches, class_has in Hc. cbn in Hc.
    rewrite orb_false_r in Hc. now rewrite Hc.
  - destruct Hc as [<-|[]]. reflexivity.
Qed.

Lemma drop_while_Forall {A} (P : A -> Prop) f l :
  Forall P l -> Forall P (drop_while f l).
Proof.
  induction 1 as [|a l Ha Hl IH]; cbn; [constructor|].
  destruct (f a); [exact IH | now constructor].
Qed.

Lemma trim_Forall (P : N -> Prop) s : Forall P s -> Forall P (trim s).
Proof.
  intros H. unfold trim, trimEnd, trimStart.
  apply Forall_rev, drop_while_Forall, Forall_rev.
  now apply drop_while_Forall.
Qed.

(** The rules that follow keep a text on one line as long as what they
    write holds no other white space. *)
Lemma rule_one_line ic r tmpl s :
  forallb (fun piece => match piece with
                        | RLit l => one_lineb l
                        | RRef _ => true
                        end) tmpl = true ->
  one_line s -> one_line (replace_all ic r tmpl s).
Proof.
  intros Ht. apply replace_all_within. intros l Hl.
  rewrite forallb_forall in Ht. apply one_lineb_spec, (Ht _ Hl).
Qed.

Lemma one_line_no_feed s : one_line s -> ~ In 10 s.
Proof.
  intros H Hin. unfold one_line in H. rewrite List.Forall_forall in H.
  specialize (H _ Hin). discriminate.
Qed.

(** A rule whose pattern begins with a character that the text does not
    hold changes nothing. *)
Lemma first_chr_absent c b tmpl s :
  ~ In c s -> replace_all false (Seq (Chr c) b) tmpl s = s.
Proof.
  intros Hc. apply replace_all_no_match. intros p' s' Hs.
  apply exec_none. cbn [run rest].
  destruct s' as [|d s']; [reflexivity|].
  unfold chr_matches. destruct (N.eqb_spec c d) as [->|]; [|reflexivity].
  destruct Hc. destruct Hs as [pre ->]. apply in_app_iff. right. now left.
Qed.


Lemma plus_chr_absent c tmpl s :
  ~ In c s -> replace_all false (plus (Chr c)) tmpl s = s.
Proof.
  intros Hc. apply replace_all_no_match. intros p' s' Hs.
  apply exec_none. unfold plus. cbn [run rest rep is_zero Nat.eqb negb].
  destruct s' as [|d s']; [reflexivity|].
  unfold chr_matches. destruct (N.eqb_spec c d) as [->|]; [|reflexivity].
  destruct Hc. destruct Hs as [pre ->]. apply in_app_iff. right. now left.
Qed.

(** On a text on one line the rules about line feeds find nothing. *)
Lemma blank_lines_rule_idle tmpl s :
  one_line s -> replace_all false blankLinesRegex tmpl s = s.
Proof. intros H. now apply first_chr_absent, one_line_no_feed. Qed.

Lemma newlines_rule_idle tmpl s :
  one_line s -> replace_all false newlinesRegex tmpl s = s.
Proof. intros H. now apply plus_chr_absent, one_line_no_feed. Qed.

(** X15: the simple extractor returns its text on one line. The line
    breaks its line builder puts between the lines of a page, and those
    of the page markers, are all turned into spaces by the first rule of
    the clean-up, which leaves nothing for the rule on blank lines
    to find. *)
Theorem simple_extractor_returns_one_line
    (sortItems : list TextItem -> list TextItem)
    (pages : list (list TextItem)) (fullText : jsstring) :
  one_line (SimpleTextExtract.extractTextFromPDF sortItems pages)
  /\ one_line (SimpleTextExtract.cleanText fullText)
  /\ replace_all false blankLinesRegex [RLit (NEWLINE ++ NEWLINE)]
       (replace_all false spacesRegex [RLit (lit " ")] fullText)
     = replace_all false spacesRegex [RLit (lit " ")] fullText.
Proof.
  assert (H : forall t, one_line (SimpleTextExtract.cleanText t)).
  { intros t. unfold SimpleTextExtract.cleanText. cbn zeta.
    apply trim_Forall. apply rule_one_line; [reflexivity|].
    rewrite blank_lines_rule_idle by apply collapse_one_line.
    apply collapse_one_line. }
  split; [apply H|]. split; [apply H|].
  apply blank_lines_rule_idle, collapse_one_line.
Qed.

Section ClassReplacer.

Variables (ic neg : bool) (items : list citem).
Variable fn : jsstring -> jsstring.
Variable P : N -> Prop.
Hypothesis replaced :
  forall c, class_matches ic neg items c = true -> Forall P (fn [c]).
Hypothesis copied :
  forall c, class_matches ic neg items c = false -> P c.


End ClassReplacer.




(** ** The clean-up of OCR text *)

(** X18: [cleanOcrText] of the API client (and its copy in the OCR
    module) returns its text on one line, and its rule on line feeds
    never finds one: the rule before it has turned every run of white
    space, line feeds included, into one space. *)
Theorem cleanOcrText_returns_one_line (text : jsstring) :
  one_line (OcrApi.cleanOcrText text)
  /\ replace_all false newlinesRegex [RLit NEWLINE]
       (replace_all false spacesRegex [RLit (lit " ")] text)
     = replace_all false spacesRegex [RLit (lit " ")] text.
Proof.
  split; [|apply newlines_rule_idle, collapse_one_line].
  unfold OcrApi.cleanOcrText. destruct text as [|c text]; [constructor|].
  cbn zeta. apply trim_Forall.
  do 7 (apply rule_one_line; [reflexivity|]).
  rewrite newlines_rule_idle by apply collapse_one_line.
  apply collapse_one_line.
Qed.

(** X19: [cleanOcrText] of the local OCR helper returns its text on one
    line as well. *)
Theorem simple_cleanOcrText_returns_one_line (text : jsstring) :
  one_line (SimpleOcr.cleanOcrText text).
Proof.
  unfold SimpleOcr.cleanOcrText. destruct text as [|c text]; [constructor|].
  cbn zeta. apply trim_Forall.
  do 3 (apply rule_one_line; [reflexivity|]).
  rewrite blank_lines_rule_idle by apply collapse_one_line.
  apply collapse_one_line.
Qed.

(** ** The enhancement of extracted text *)




(** ** The amount rule of the local OCR helper *)

Lemma amount_char_cases c :
  amount_char c = true ->
  (48 <= c <= 57 \/ c = 36 \/ c = 44 \/ c = 46)%N.
Proof. unfold amount_char, is_digit, in_range. intros H. bools; lia. Qed.

Lemma amount_char_not_space c :
  amount_char c = true -> is_space c = false.
Proof.
  intros H%amount_char_cases. unfold is_space, in_range.
  repeat match goal with
  | |- context [(?a <=? ?b)] => destruct (N.leb_spec a b); try lia
  | |- context [(?a =? ?b)] => destruct (N.eqb_spec a b); try lia
  end; reflexivity.
Qed.

Lemma amount_char_not_control c :
  amount_char c = true ->
  class_matches false false [CRange 0 31; CRange 127 159] c = false.
Proof.
  intros H%amount_char_cases.
  unfold class_matches, class_has. cbn [existsb citem_has xorb].
  unfold in_range.
  repeat match goal with
  | |- context [(?a <=? ?b)] => destruct (N.leb_spec a b); try lia
  end; reflexivity.
Qed.

(** A rule on one class, or on a run of it, finds nothing in a text that
    holds no code unit of the class. *)
Lemma class_rule_idle ic neg items tmpl s :
  (forall c, In c s -> class_matches ic neg items c = false) ->
  replace_all ic (Class neg items) tmpl s = s.
Proof.
  intros H. apply replace_all_no_match. intros p' s' [pre ->].
  apply exec_none. cbn [run rest]. destruct s' as [|c s']; [reflexivity|].
  rewrite H; [reflexivity|]. apply in_app_iff. right. now left.
Qed.

Lemma plus_class_first ic neg items x y :
  In y (run ic (plus (Class neg items)) x) ->
  exists c t, rest x = c :: t /\ class_matches ic neg items c = true.
Proof.
  unfold plus. cbn [run rep is_zero Nat.eqb negb].
  intros (z & Hz & _)%in_flat_map.
  apply run_Class_step in Hz as (c & t & Hc & _ & Hm). now exists c, t.
Qed.

Lemma plus_class_rule_idle ic neg items tmpl s :
  (forall c, In c s -> class_matches ic neg items c = false) ->
  replace_all ic (plus (Class neg items)) tmpl s = s.
Proof.
  intros H. apply replace_all_no_match. intros p' s' [pre ->].
  apply exec_none.
  destruct (run ic (plus (Class neg items)) (MState p' s' ∅))
    as [|y l] eqn:E; [reflexivity|]. exfalso.
  destruct (plus_class_first ic neg items (MState p' s' ∅) y)
    as (c & t & Hc & Hm); [rewrite E; now left|].
  cbn [rest] in Hc. subst s'. rewrite H in Hm; [discriminate|].
  apply in_app_iff. right. now left.
Qed.

(** A pattern that asks for a run of a class after its first part finds
    nothing in a text without the class; nor does one that asks for a
    character after its first two parts, in a text without it. *)
Lemma then_plus_class_idle a neg items b tmpl s :
  (forall c, In c s -> class_matches false neg items c = false) ->
  replace_all false (Seq a (Seq (plus (Class neg items)) b)) tmpl s = s.
Proof.
  intros H. apply replace_all_no_match. intros p' s' [pre ->].
  apply exec_none.
  destruct (run false (Seq a (Seq (plus (Class neg items)) b))
              (MState p' s' ∅)) as [|y l] eqn:E; [reflexivity|]. exfalso.
  assert (Hy : In y (run false (Seq a (Seq (plus (Class neg items)) b))
                         (MState p' s' ∅))) by (rewrite E; now left).
  apply run_Seq in Hy as (z & Hz & Hy).
  apply run_Seq in Hy as (z' & Hz' & _).
  apply plus_class_first in Hz' as (c & t & Hc & Hm).
  apply run_suffix in Hz as [w Hw]. cbn [rest] in Hw.
  rewrite H in Hm; [discriminate|].
  apply in_app_iff. right. rewrite Hw, Hc. apply in_app_iff. right.
  now left.
Qed.

Lemma then_then_chr_idle a b c r tmpl s :
  ~ In c s ->
  replace_all false (Seq a (Seq b (Seq (Chr c) r))) tmpl s = s.
Proof.
  intros H. apply replace_all_no_match. intros p' s' [pre ->].
  apply exec_none.
  destruct (run false (Seq a (Seq b (Seq (Chr c) r))) (MState p' s' ∅))
    as [|y l] eqn:E; [reflexivity|]. exfalso.
  assert (Hy : In y (run false (Seq a (Seq b (Seq (Chr c) r)))
                         (MState p' s' ∅))) by (rewrite E; now left).
  apply run_Seq in Hy as (z1 & Hz1 & Hy).
  apply run_Seq in Hy as (z2 & Hz2 & Hy).
  apply run_Seq in Hy as (z3 & Hz3 & _).
  apply run_Chr_inv in Hz3 as (t & Ht & _).
  apply run_suffix in Hz1 as [w1 Hw1], Hz2 as [w2 Hw2]. cbn [rest] in Hw1.
  apply H. apply in_app_iff. right. rewrite Hw1, Hw2, Ht.
  rewrite !in_app_iff. right. right. now left.
Qed.

Lemma drop_while_head {A} (f : A -> bool) l :
  match l with a :: _ => f a = false | [] => True end ->
  drop_while f l = l.
Proof. destruct l as [|a l]; [reflexivity|]. cbn. now intros ->. Qed.

Lemma trim_idle s :
  (forall c, In c s -> is_space c = false) -> trim s = s.
Proof.
  intros H. unfold trim, trimEnd, trimStart.
  rewrite (drop_while_head is_space s).
  - rewrite drop_while_head; [apply rev_involutive|].
    destruct (rev s) as [|a l] eqn:E; [exact I|]. apply H.
    apply in_rev. rewrite E. now left.
  - destruct s as [|a l]; [exact I|]. apply H. now left.
Qed.

(** *** The first match, part by part *)

Lemma head_Seq ic a b x z y :
  head (run ic a x) = Some z -> head (run ic b z) = Some y ->
  head (run ic (Seq a b) x) = Some y.
Proof.
  cbn [run]. destruct (run ic a x) as [|z' l]; [discriminate|].
  intros [= ->]. cbn [flat_map].
  destruct (run ic b z) as [|y' l']; [discriminate|]. now intros [= ->].
Qed.

Lemma head_Chr c p s caps0 :
  head (run false (Chr c) (MState p (c :: s) caps0))
  = Some (MState (Some c) s caps0).
Proof.
  cbn [run rest]. unfold chr_matches. now rewrite N.eqb_refl.
Qed.

Lemma head_Group ic i r x z :
  head (run ic r x) = Some z ->
  head (run ic (Group i r) x)
  = Some (MState (prev z) (rest z) (<[i := consumed x z]> (caps z))).
Proof.
  cbn [run]. destruct (run ic r x) as [|z' l]; [discriminate|].
  now intros [= ->].
Qed.

(** Not at a space: [\s*] takes nothing. *)
Lemma head_star_space p s caps0 :
  match s with c :: _ => is_space c = false | [] => True end ->
  head (run false (star space) (MState p s caps0))
  = Some (MState p s caps0).
Proof.
  intros Hs. unfold star, space, cls.
  cbn [run rest rep is_zero Nat.eqb negb Nat.add].
  destruct s as [|c s]; [reflexivity|].
  unfold class_matches, class_has. cbn [existsb citem_has xorb].
  now rewrite Hs.
Qed.

(** At a run of digits that ends the text or is followed by another
    character, the greedy [\d+] takes the whole run first. *)
Lemma rep_digits_head ds : forall mn fuel p s caps0,
  forallb is_digit ds = true ->
  match s with c :: _ => is_digit c = false | [] => True end ->
  (mn <= length ds)%nat -> (length ds < fuel)%nat ->
  head (rep (run false digit) true fuel mn None (MState p (ds ++ s) caps0))
  = Some (MState (prev_after p ds) s caps0).
Proof.
  induction ds as [|d ds IH]; intros mn fuel p s caps0 Hds Hs Hmn Hf;
    (destruct fuel as [|fuel]; [cbn in Hf; lia|]); cbn [rep is_zero].
  - cbn [length] in Hmn. assert (mn = 0%nat) as -> by lia.
    cbn [Nat.eqb negb app].
    assert (Hrun : run false digit (MState p s caps0) = []).
    { cbn [digit cls run rest]. destruct s as [|c s]; [reflexivity|].
      unfold class_matches, class_has. cbn [existsb citem_has xorb].
      now rewrite Hs. }
    rewrite Hrun. reflexivity.
  - cbn [forallb] in Hds. apply andb_true_iff in Hds as [Hd Hds].
    cbn [length] in Hmn, Hf. cbn [app].
    rewrite run_digit_step by exact Hd. cbn [flat_map rest].
    rewrite app_nil_r.
    replace (Nat.eqb (length (ds ++ s)) (length (d :: ds ++ s))) with false
      by (symmetry; apply Nat.eqb_neq; cbn [length]; lia).
    rewrite andb_false_r, prev_after_cons.
    cbn [fmap option_fmap option_map].
    specialize (IH (Nat.pred mn) fuel (Some d) s caps0 Hds Hs
                   ltac:(lia) ltac:(lia)).
    destruct (rep _ _ _ _ _ _) as [|z l]; [discriminate|].
    injection IH as ->. now destruct (negb (Nat.eqb mn 0)).
Qed.

Lemma head_plus_digits ds p s caps0 :
  ds <> [] -> forallb is_digit ds = true ->
  match s with c :: _ => is_digit c = false | [] => True end ->
  head (run false (plus digit) (MState p (ds ++ s) caps0))
  = Some (MState (prev_after p ds) s caps0).
Proof.
  intros Hne Hds Hs. unfold plus. cbn [run rest].
  apply rep_digits_head; auto.
  - destruct ds; [easy | cbn [length]; lia].
  - rewrite length_app. lia.
Qed.

Lemma consumed_prefix p q ds s caps1 caps2 :
  consumed (MState p (ds ++ s) caps1) (MState q s caps2) = ds.
Proof.
  unfold consumed. cbn [rest]. rewrite length_app.
  replace (length ds + length s - length s)%nat with (length ds) by lia.
  now rewrite take_app_length.
Qed.

(** A captured run of digits. *)
Lemma head_digits_group i ds p s caps0 :
  ds <> [] -> forallb is_digit ds = true ->
  match s with c :: _ => is_digit c = false | [] => True end ->
  head (run false (Group i (plus digit)) (MState p (ds ++ s) caps0))
  = Some (MState (prev_after p ds) s (<[i := ds]> caps0)).
Proof.
  intros Hne Hds Hs.
  rewrite (head_Group false i (plus digit) _ _
             (head_plus_digits ds p s caps0 Hne Hds Hs)).
  cbn [prev rest caps]. now rewrite consumed_prefix.
Qed.

Lemma digit_not_space c : is_digit c = true -> is_space c = false.
Proof.
  intros H. apply amount_char_not_space. unfold amount_char. now rewrite H.
Qed.

Lemma digits_head_not_space ds s :
  ds <> [] -> forallb is_digit ds = true ->
  match ds ++ s with c :: _ => is_space c = false | [] => True end.
Proof.
  intros Hne Hds. destruct ds as [|d ds]; [easy|]. cbn in *.
  apply andb_true_iff in Hds as [Hd _]. now apply digit_not_space.
Qed.

(** The first match of the amount pattern on an amount written without
    spaces takes all of it, and keeps its three runs of digits. *)
Lemma amount_first_match p a b c :
  a <> [] -> b <> [] -> c <> [] ->
  forallb is_digit a = true -> forallb is_digit b = true ->
  forallb is_digit c = true ->
  exists q,
    exec false SimpleOcr.amountRegex p
      (36 :: a ++ 44 :: b ++ 46 :: c)
    = Some (MState q [] (<[3%nat := c]> (<[2%nat := b]> (<[1%nat := a]> ∅)))).
Proof.
  intros Ha Hb Hc Da Db Dc. eexists. unfold exec, SimpleOcr.amountRegex.
  cbn [seq foldr].
  eapply head_Seq; [apply head_Chr|].
  eapply head_Seq;
    [apply head_star_space, (digits_head_not_space a); assumption|].
  eapply head_Seq; [apply head_digits_group; auto; reflexivity|].
  eapply head_Seq; [apply head_star_space; reflexivity|].
  eapply head_Seq; [apply head_Chr|].
  eapply head_Seq;
    [apply head_star_space, (digits_head_not_space b); assumption|].
  eapply head_Seq; [apply head_digits_group; auto; reflexivity|].
  eapply head_Seq; [apply head_star_space; reflexivity|].
  eapply head_Seq; [apply head_Chr|].
  eapply head_Seq;
    [apply head_star_space;
     rewrite <- (app_nil_r c); apply (digits_head_not_space c);
     assumption|].
  eapply head_Seq.
  - rewrite <- (app_nil_r c) at 1. apply head_digits_group; auto.
  - reflexivity.
Qed.

Lemma amount_chars_of a b c :
  forallb is_digit a = true -> forallb is_digit b = true ->
  forallb is_digit c = true ->
  forall e, In e (36 :: a ++ 44 :: b ++ 46 :: c) -> amount_char e = true.
Proof.
  intros Da Db Dc e He.
  assert (Hd : forall ds, forallb is_digit ds = true -> In e ds ->
                          amount_char e = true).
  { intros ds Hds Hin. unfold amount_char.
    rewrite forallb_forall in Hds. now rewrite (Hds _ Hin). }
  cbn [In] in He. rewrite !in_app_iff in He. cbn [In] in He.
  rewrite !in_app_iff in He. cbn [In] in He.
  destruct He as [<-|[He|[<-|[He|[<-|He]]]]]; eauto.
Qed.

(** The amount rule on an amount written without spaces. *)
Lemma amount_rule_result a b c :
  a <> [] -> b <> [] -> c <> [] ->
  forallb is_digit a = true -> forallb is_digit b = true ->
  forallb is_digit c = true ->
  replace_all false SimpleOcr.amountRegex SimpleOcr.amountTemplate
    (36 :: a ++ 44 :: b ++ 46 :: c)
  = 36 :: 49 :: 44 :: b ++ 46 :: c.
Proof.
  intros Ha Hb Hc Da Db Dc.
  destruct (amount_first_match None a b c Ha Hb Hc Da Db Dc) as [q E].
  unfold replace_all.
  rewrite (scan_match false _ _ None _ _ (36 :: a ++ 44 :: b ++ 46 :: c) E);
    [| cbn [rest]; now rewrite app_nil_r | easy].
  cbn [rest scan]. rewrite exec_none by reflexivity.
  rewrite app_nil_r. unfold expand, SimpleOcr.amountTemplate.
  cbn [flat_map caps].
  rewrite lookup_insert_ne by lia. rewrite !lookup_insert_eq.
  cbn [default]. rewrite app_nil_r. reflexivity.
Qed.

(** X21: the local OCR helper spoils every amount it tidies. Its
    replacement is written with two dollar signs before the 1, which
    stands for a dollar sign followed by the digit 1, not for the first
    group: of an amount such as $12,345.67 the digits before the comma
    are lost and a 1 is put in their place. *)
Theorem amount_loses_its_leading_digits (a b c : jsstring) :
  a <> [] -> b <> [] -> c <> [] ->
  forallb is_digit a = true -> forallb is_digit b = true ->
  forallb is_digit c = true ->
  SimpleOcr.cleanOcrText (lit "$" ++ a ++ lit "," ++ b ++ lit "." ++ c)
  = lit "$1," ++ b ++ lit "." ++ c.
Proof.
  intros Ha Hb Hc Da Db Dc.
  change (lit "$" ++ a ++ lit "," ++ b ++ lit "." ++ c)
    with (36 :: a ++ 44 :: b ++ 46 :: c).
  change (lit "$1," ++ b ++ lit "." ++ c)
    with (36 :: 49 :: 44 :: b ++ 46 :: c).
  pose proof (amount_chars_of a b c Da Db Dc) as Hin.
  assert (Hout : forall e, In e (36 :: 49 :: 44 :: b ++ 46 :: c) ->
                           amount_char e = true).
  { intros e He. destruct He as [<-|He]; [reflexivity|].
    apply (amount_chars_of [49] b c); auto. now right. }
  unfold SimpleOcr.cleanOcrText. cbn zeta.
  unfold controlRegex, spacesRegex, space, cls.
  rewrite class_rule_idle
    by (intros e He; now apply amount_char_not_control, Hin).
  assert (Hsp : forall t, (forall e, In e t -> amount_char e = true) ->
            forall e, In e t ->
            class_matches false false [CSpace] e = false).
  { intros t Ht e He. unfold class_matches, class_has.
    cbn [existsb citem_has xorb].
    now rewrite (amount_char_not_space e (Ht e He)). }
  rewrite plus_class_rule_idle by now apply Hsp.
  unfold blankLinesRegex. cbn [seq foldr].
  rewrite first_chr_absent
    by (intros H10; now apply Hin in H10).
  unfold SimpleOcr.splitDigitsRegex, plus at 1, space, cls. cbn [seq foldr].
  rewrite (then_plus_class_idle _ false [CSpace]) by now apply Hsp.
  rewrite amount_rule_result by assumption.
  unfold SimpleOcr.dateRegex. cbn [seq foldr].
  rewrite then_then_chr_idle
    by (intros H47; now apply Hout in H47).
  apply trim_idle. intros e He. now apply amount_char_not_space, Hout.
Qed.

Lemma amount_loses_its_leading_digits_witness :
  SimpleOcr.cleanOcrText
    (lit "$" ++ lit "12" ++ lit "," ++ lit "345" ++ lit "." ++ lit "67")
  = lit "$1," ++ lit "345" ++ lit "." ++ lit "67".
Proof.
  apply (amount_loses_its_leading_digits (lit "12") (lit "345") (lit "67"));
    easy.
Defined.

